(** * Adversarial search notebooks: alpha-beta minimax and the opening book

    Shallow embedding of the two code cells of
    [05. Adversarial Search/03. Optimizing Minimax Search/04. minimax.ipynb]:

    - [alpha_beta_search], [min_value], [max_value] (first cell);
    - [build_table], [build_tree], [simulate] (second cell).

    The module [gamestate] the cells import is not part of the sources.  Its
    [GameState] objects are used through a handful of methods only, which are
    collected in the class [Game] below; everything is stated for an
    arbitrary instance of that class, and tried on a small concrete game.

    The cells of
    [01. Introduction to Artificial Intelligence/06. Constraint Satisfaction
    Problems/1_Constraint Satisfaction/Constraint_Satisfaction.ipynb] that
    run (cryptarithmetic, map coloring, N-queens) are embedded as the
    constraints they hand to the solver. *)

From stdpp Require Import base option list gmap strings pretty.

Open Scope Z_scope.

(* ===================================================================== *)
(** ** Numbers *)
(* ===================================================================== *)

(** The search mixes the values returned by [utility] with [float("inf")]
    and [float("-inf")].  [num] is the integers extended by the two
    infinities, compared the way Python compares them. *)
Inductive num : Type :=
  | NegInf
  | Fin (z : Z)
  | PosInf.

#[global] Instance num_eq_dec : EqDecision num.
Proof. solve_decision. Defined.

(** [x <= y] *)
Definition num_leb (x y : num) : bool :=
  match x, y with
  | NegInf, _ => true
  | _, PosInf => true
  | Fin a, Fin b => (a <=? b)
  | _, _ => false
  end.

(** [x < y] *)
Definition num_ltb (x y : num) : bool := negb (num_leb y x).

(** [min(x, y)]: Python keeps [x] unless [y < x]. *)
Definition num_min (x y : num) : num := if num_ltb y x then y else x.

(** [max(x, y)]: Python keeps [x] unless [y > x]. *)
Definition num_max (x y : num) : num := if num_ltb x y then y else x.

Definition num_le (x y : num) : Prop := num_leb x y = true.
Definition num_lt (x y : num) : Prop := num_ltb x y = true.

Declare Scope num_scope.
Delimit Scope num_scope with num.
Bind Scope num_scope with num.
Infix "<=" := num_le : num_scope.
Infix "<" := num_lt : num_scope.

(* ===================================================================== *)
(** ** Outcomes of a run *)
(* ===================================================================== *)

(** Exceptions the cells can raise by themselves: [random.choice] on an
    empty sequence and [max] on an empty [Counter]. *)
Inductive exn : Type :=
  | IndexError
  | ValueError.

(** A call either returns, raises, or is cut off by the recursion budget of
    the model (Python itself would go on). *)
Inductive outcome (A : Type) : Type :=
  | Done (a : A)
  | Raised (e : exn)
  | OutOfFuel.

Arguments Done {A} a.
Arguments Raised {A} e.
Arguments OutOfFuel {A}.

#[global] Instance outcome_ret : MRet outcome := λ A a, Done a.
#[global] Instance outcome_bind : MBind outcome := λ A B f m,
  match m with
  | Done a => f a
  | Raised e => Raised e
  | OutOfFuel => OutOfFuel
  end.

(* ===================================================================== *)
(** ** The game interface *)
(* ===================================================================== *)

(** What the cells use of a [GameState]: [actions()], [result(a)],
    [terminal_test()], [utility(player_id)], the attributes [_parity] and
    [hashable], and the constructor [GameState()] of the initial position.
    Actions and hashable keys are dictionary keys in the second cell, so
    both come with a decidable equality; keys are countable. *)
Class Game : Type := {
  State : Type;
  Action : Type;
  Key : Type;
  Action_eq_dec :: EqDecision Action;
  Key_eq_dec :: EqDecision Key;
  Key_countable :: Countable Key;
  actions : State → list Action;
  result : State → Action → State;
  terminal_test : State → bool;
  utility : State → Z → num;
  parity : State → Z;
  hashable : State → Key;
  GameState : State;
}.

(* ===================================================================== *)
(** ** First cell: alpha-beta search *)
(* ===================================================================== *)

Section Search.
Context {G : Game}.

(** The [for] loop of [min_value] over the actions [todo] still to come;
    [child] is the evaluator called on the children. *)
Fixpoint min_value_loop (child : State → num → num → outcome num)
    (gameState : State) (todo : list Action) (v alpha beta : num)
    : outcome num :=
  match todo with
  | [] => Done v
  | a :: todo =>
      x ← child (result gameState a) alpha beta;
      let v := num_min v x in
      if num_leb v alpha then Done v
      else min_value_loop child gameState todo v alpha (num_min beta v)
  end.

(** The [for] loop of [max_value]. *)
Fixpoint max_value_loop (child : State → num → num → outcome num)
    (gameState : State) (todo : list Action) (v alpha beta : num)
    : outcome num :=
  match todo with
  | [] => Done v
  | a :: todo =>
      x ← child (result gameState a) alpha beta;
      let v := num_max v x in
      if num_leb beta v then Done v
      else max_value_loop child gameState todo v (num_max alpha v) beta
  end.

(** [min_value] and [max_value].  [fuel] bounds the depth of the
    recursion. *)
Fixpoint min_value (fuel : nat) (gameState : State) (alpha beta : num)
    : outcome num :=
  match fuel with
  | O => OutOfFuel
  | S fuel =>
      if terminal_test gameState then Done (utility gameState 0)
      else min_value_loop (max_value fuel) gameState (actions gameState)
             PosInf alpha beta
  end
with max_value (fuel : nat) (gameState : State) (alpha beta : num)
    : outcome num :=
  match fuel with
  | O => OutOfFuel
  | S fuel =>
      if terminal_test gameState then Done (utility gameState 0)
      else max_value_loop (min_value fuel) gameState (actions gameState)
             NegInf alpha beta
  end.

(** The [for] loop of [alpha_beta_search]; it returns [best_move], which
    is [None] as long as no value exceeded [best_score]. *)
Fixpoint search_loop (child : State → num → num → outcome num)
    (gameState : State) (todo : list Action)
    (alpha beta best_score : num) (best_move : option Action)
    : outcome (option Action) :=
  match todo with
  | [] => Done best_move
  | a :: todo =>
      v ← child (result gameState a) alpha beta;
      let alpha := num_max alpha v in
      if num_ltb best_score v
      then search_loop child gameState todo alpha beta v (Some a)
      else search_loop child gameState todo alpha beta best_score best_move
  end.

Definition alpha_beta_search (fuel : nat) (gameState : State)
    : outcome (option Action) :=
  search_loop (min_value fuel) gameState (actions gameState)
    NegInf PosInf NegInf None.

End Search.

(* ===================================================================== *)
(** ** Plain minimax, for comparison *)
(* ===================================================================== *)

(** Minimax as the specification words it: no window, every child of every
    node is evaluated.  Terminal values and the choice at the root (first
    action whose value strictly exceeds the best so far) are those of the
    cell. *)
Section PlainMinimax.
Context {G : Game}.

(** [v = init; for a in actions: v = pick(v, child(result(a)))]. *)
Fixpoint plain_loop (pick : num → num → num) (child : State → outcome num)
    (gameState : State) (todo : list Action) (v : num) : outcome num :=
  match todo with
  | [] => Done v
  | a :: todo =>
      x ← child (result gameState a);
      plain_loop pick child gameState todo (pick v x)
  end.

Fixpoint plain_min_value (fuel : nat) (gameState : State) : outcome num :=
  match fuel with
  | O => OutOfFuel
  | S fuel =>
      if terminal_test gameState then Done (utility gameState 0)
      else plain_loop num_min (plain_max_value fuel) gameState
             (actions gameState) PosInf
  end
with plain_max_value (fuel : nat) (gameState : State) : outcome num :=
  match fuel with
  | O => OutOfFuel
  | S fuel =>
      if terminal_test gameState then Done (utility gameState 0)
      else plain_loop num_max (plain_min_value fuel) gameState
             (actions gameState) NegInf
  end.

Fixpoint plain_search_loop (child : State → outcome num)
    (gameState : State) (todo : list Action)
    (best_score : num) (best_move : option Action)
    : outcome (option Action) :=
  match todo with
  | [] => Done best_move
  | a :: todo =>
      v ← child (result gameState a);
      if num_ltb best_score v
      then plain_search_loop child gameState todo v (Some a)
      else plain_search_loop child gameState todo best_score best_move
  end.

Definition plain_minimax_search (fuel : nat) (gameState : State)
    : outcome (option Action) :=
  plain_search_loop (plain_min_value fuel) gameState (actions gameState)
    NegInf None.

End PlainMinimax.

(* ===================================================================== *)
(** ** The loops, step by step *)
(* ===================================================================== *)

(** The two evaluator loops as the specification describes them, one rule
    per way an iteration can go: the actions are exhausted, the running
    value causes a cutoff, or the window is tightened and the loop goes on
    to the next sibling. *)
Section LoopRules.
Context {G : Game}.
Variable child : State → num → num → outcome num.
Variable gameState : State.

Inductive min_run : list Action → num → num → num → num → Prop :=
  | min_run_end v alpha beta :
      min_run [] v alpha beta v
  | min_run_cutoff a todo v alpha beta x :
      child (result gameState a) alpha beta = Done x →
      (num_min v x <= alpha)%num →
      min_run (a :: todo) v alpha beta (num_min v x)
  | min_run_next a todo v alpha beta x r :
      child (result gameState a) alpha beta = Done x →
      ¬ (num_min v x <= alpha)%num →
      min_run todo (num_min v x) alpha (num_min beta (num_min v x)) r →
      min_run (a :: todo) v alpha beta r.

Inductive max_run : list Action → num → num → num → num → Prop :=
  | max_run_end v alpha beta :
      max_run [] v alpha beta v
  | max_run_cutoff a todo v alpha beta x :
      child (result gameState a) alpha beta = Done x →
      (beta <= num_max v x)%num →
      max_run (a :: todo) v alpha beta (num_max v x)
  | max_run_next a todo v alpha beta x r :
      child (result gameState a) alpha beta = Done x →
      ¬ (beta <= num_max v x)%num →
      max_run todo (num_max v x) (num_max alpha (num_max v x)) beta r →
      max_run (a :: todo) v alpha beta r.

(** The values the root loop evaluates, in the order of [todo], with
    [alpha] raised after each one as [alpha_beta_search] does. *)
Fixpoint root_values (todo : list Action) (alpha beta : num)
    : outcome (list num) :=
  match todo with
  | [] => Done []
  | a :: todo =>
      v ← child (result gameState a) alpha beta;
      vs ← root_values todo (num_max alpha v) beta;
      Done (v :: vs)
  end.

End LoopRules.


(* ===================================================================== *)
(** ** The search under the harness's call counter *)
(* ===================================================================== *)

(** The pre-test of the first cell reads [game.call_counter] after the
    search.  In this module the three functions of the cell, and plain
    minimax next to them, carry that counter along. *)
Module Counted.
Section Counted.
Context {G : Game}.

Fixpoint min_value_loop
    (child : State → num → num → nat → outcome (num * nat))
    (gameState : State) (todo : list Action) (v alpha beta : num)
    (call_counter : nat) : outcome (num * nat) :=
  match todo with
  | [] => Done (v, call_counter)
  | a :: todo =>
      '(x, call_counter) ← child (result gameState a) alpha beta call_counter;
      let v := num_min v x in
      if num_leb v alpha then Done (v, call_counter)
      else min_value_loop child gameState todo v alpha (num_min beta v)
             call_counter
  end.

Fixpoint max_value_loop
    (child : State → num → num → nat → outcome (num * nat))
    (gameState : State) (todo : list Action) (v alpha beta : num)
    (call_counter : nat) : outcome (num * nat) :=
  match todo with
  | [] => Done (v, call_counter)
  | a :: todo =>
      '(x, call_counter) ← child (result gameState a) alpha beta call_counter;
      let v := num_max v x in
      if num_leb beta v then Done (v, call_counter)
      else max_value_loop child gameState todo v (num_max alpha v) beta
             call_counter
  end.

(** Modelled from the spec: the counter [call_counter] of the module
    [gamestate], which is missing from the sources, counts the nodes the
    search visits.  It is incremented once per call of an evaluator, and
    nothing ever reads it. *)
Fixpoint min_value (fuel : nat) (gameState : State) (alpha beta : num)
    (call_counter : nat) : outcome (num * nat) :=
  match fuel with
  | O => OutOfFuel
  | S fuel =>
      let call_counter := S call_counter in
      if terminal_test gameState
      then Done (utility gameState 0, call_counter)
      else min_value_loop (max_value fuel) gameState (actions gameState)
             PosInf alpha beta call_counter
  end
with max_value (fuel : nat) (gameState : State) (alpha beta : num)
    (call_counter : nat) : outcome (num * nat) :=
  match fuel with
  | O => OutOfFuel
  | S fuel =>
      let call_counter := S call_counter in
      if terminal_test gameState
      then Done (utility gameState 0, call_counter)
      else max_value_loop (min_value fuel) gameState (actions gameState)
             NegInf alpha beta call_counter
  end.

Fixpoint search_loop
    (child : State → num → num → nat → outcome (num * nat))
    (gameState : State) (todo : list Action)
    (alpha beta best_score : num) (best_move : option Action)
    (call_counter : nat) : outcome (option Action * nat) :=
  match todo with
  | [] => Done (best_move, call_counter)
  | a :: todo =>
      '(v, call_counter) ← child (result gameState a) alpha beta call_counter;
      let alpha := num_max alpha v in
      if num_ltb best_score v
      then search_loop child gameState todo alpha beta v (Some a)
             call_counter
      else search_loop child gameState todo alpha beta best_score best_move
             call_counter
  end.

Definition alpha_beta_search (fuel : nat) (gameState : State)
    (call_counter : nat) : outcome (option Action * nat) :=
  search_loop (min_value fuel) gameState (actions gameState)
    NegInf PosInf NegInf None call_counter.

(** Plain minimax under the same counter, incremented in the same place. *)
Fixpoint plain_loop (pick : num → num → num)
    (child : State → nat → outcome (num * nat))
    (gameState : State) (todo : list Action) (v : num) (call_counter : nat)
    : outcome (num * nat) :=
  match todo with
  | [] => Done (v, call_counter)
  | a :: todo =>
      '(x, call_counter) ← child (result gameState a) call_counter;
      plain_loop pick child gameState todo (pick v x) call_counter
  end.

Fixpoint plain_min_value (fuel : nat) (gameState : State)
    (call_counter : nat) : outcome (num * nat) :=
  match fuel with
  | O => OutOfFuel
  | S fuel =>
      let call_counter := S call_counter in
      if terminal_test gameState
      then Done (utility gameState 0, call_counter)
      else plain_loop num_min (plain_max_value fuel) gameState
             (actions gameState) PosInf call_counter
  end
with plain_max_value (fuel : nat) (gameState : State)
    (call_counter : nat) : outcome (num * nat) :=
  match fuel with
  | O => OutOfFuel
  | S fuel =>
      let call_counter := S call_counter in
      if terminal_test gameState
      then Done (utility gameState 0, call_counter)
      else plain_loop num_max (plain_min_value fuel) gameState
             (actions gameState) NegInf call_counter
  end.

Fixpoint plain_search_loop (child : State → nat → outcome (num * nat))
    (gameState : State) (todo : list Action)
    (best_score : num) (best_move : option Action) (call_counter : nat)
    : outcome (option Action * nat) :=
  match todo with
  | [] => Done (best_move, call_counter)
  | a :: todo =>
      '(v, call_counter) ← child (result gameState a) call_counter;
      if num_ltb best_score v
      then plain_search_loop child gameState todo v (Some a) call_counter
      else plain_search_loop child gameState todo best_score best_move
             call_counter
  end.

Definition plain_minimax_search (fuel : nat) (gameState : State)
    (call_counter : nat) : outcome (option Action * nat) :=
  plain_search_loop (plain_min_value fuel) gameState (actions gameState)
    NegInf None call_counter.

(** Two calls in a row, as when the cell is run again: the second one starts
    from the counter the first one left. *)
Definition search_twice (fuel : nat) (gameState : State)
    (call_counter : nat)
    : outcome (option Action * option Action * nat) :=
  '(first, call_counter) ← alpha_beta_search fuel gameState call_counter;
  '(second, call_counter) ← alpha_beta_search fuel gameState call_counter;
  Done (first, second, call_counter).

End Counted.
End Counted.

(* ===================================================================== *)
(** ** Second cell: the opening book *)
(* ===================================================================== *)

(** A [collections.Counter] keyed by actions, in insertion order (the order
    in which [max] walks it). *)
Abbreviation tally := (list (Action * Z)).

Section Book.
Context {G : Game}.

(** [c[a]], which is [0] for an action never recorded. *)
Fixpoint tally_get (c : tally) (a : Action) : Z :=
  match c with
  | [] => 0
  | (a', n) :: c => if decide (a = a') then n else tally_get c a
  end.

(** [c[a] += reward]. *)
Fixpoint tally_add (c : tally) (a : Action) (reward : Z) : tally :=
  match c with
  | [] => [(a, 0 + reward)]
  | (a', n) :: c =>
      if decide (a = a') then (a', n + reward) :: c
      else (a', n) :: tally_add c a reward
  end.

(** [book[k][a]] read without creating an entry. *)
Definition book_get (book : gmap Key tally) (k : Key) (a : Action) : Z :=
  tally_get (default [] (book !! k)) a.

(** [book[k][a] += reward] on a [defaultdict(Counter)]. *)
Definition book_add (book : gmap Key tally) (k : Key) (a : Action)
    (reward : Z) : gmap Key tally :=
  <[k := tally_add (default [] (book !! k)) a reward]> book.

(** [max(v, key=v.get)]: the first action of the largest count. *)
Fixpoint max_from (best : Action) (best_n : Z) (c : tally) : Action :=
  match c with
  | [] => best
  | (a, n) :: c =>
      if best_n <? n then max_from a n c else max_from best best_n c
  end.

Definition max_by_get (v : tally) : option Action :=
  match v with
  | [] => None
  | (a, n) :: c => Some (max_from a n c)
  end.

(** The random numbers the run draws, one per call of [random.choice], and
    the number of draws made so far. *)
Variable tape : nat → nat.

(** [random.choice(xs)] *)
Definition choice {A : Type} (xs : list A) (drawn : nat)
    : outcome (A * nat) :=
  match xs !! (tape drawn mod length xs)%nat with
  | Some x => Done (x, S drawn)
  | None => Raised IndexError
  end.

(** The [while] loop of [simulate]; [fuel] bounds its iterations. *)
Fixpoint playout (fuel : nat) (state : State) (drawn : nat)
    : outcome (State * nat) :=
  match fuel with
  | O => OutOfFuel
  | S fuel =>
      if terminal_test state then Done (state, drawn)
      else
        '(a, drawn) ← choice (actions state) drawn;
        playout fuel (result state a) drawn
  end.

Definition simulate (fuel : nat) (state : State) (drawn : nat)
    : outcome (Z * nat) :=
  let player_id := parity state in
  '(state, drawn) ← playout fuel state drawn;
  Done (if num_ltb (utility state player_id) (Fin 0) then -1 else 1, drawn).

(** [build_tree(state, book, depth)]; the book is updated in place, so it
    is passed in and handed back.  [depth] only counts down from 2. *)
Fixpoint build_tree (fuel : nat) (state : State) (book : gmap Key tally)
    (depth : nat) (drawn : nat) : outcome (Z * gmap Key tally * nat) :=
  match depth with
  | O =>
      '(r, drawn) ← simulate fuel state drawn;
      Done (- r, book, drawn)
  | S depth =>
      if terminal_test state then
        '(r, drawn) ← simulate fuel state drawn;
        Done (- r, book, drawn)
      else
        '(action, drawn) ← choice (actions state) drawn;
        '(reward, book, drawn) ←
            build_tree fuel (result state action) book depth drawn;
        Done (- reward, book_add book (hashable state) action reward, drawn)
  end.

(** The positions at which the call [build_tree(state, book, depth)] made
    after [drawn] draws records an action: [state] itself when it is not
    terminal and depth is left, and what the call on the chosen child
    records. *)
Inductive recorded : nat → State → nat → State → Prop :=
  | recorded_here depth state drawn :
      terminal_test state = false →
      recorded (S depth) state drawn state
  | recorded_below depth state drawn a drawn' s :
      terminal_test state = false →
      choice (actions state) drawn = Done (a, drawn') →
      recorded depth (result state a) drawn' s →
      recorded (S depth) state drawn s.

(** The [for _ in range(num_rounds)] loop of [build_table]. *)
Fixpoint rounds (fuel : nat) (n : nat) (book : gmap Key tally) (drawn : nat)
    : outcome (gmap Key tally * nat) :=
  match n with
  | O => Done (book, drawn)
  | S n =>
      '(_, book, drawn) ← build_tree fuel GameState book 2 drawn;
      rounds fuel n book drawn
  end.

(** [{k: max(v, key=v.get) for k, v in book.items()}] *)
Definition collapse (book : gmap Key tally) : outcome (gmap Key Action) :=
  if decide (map_Forall (λ _ v, is_Some (max_by_get v)) book)
  then Done (omap max_by_get book)
  else Raised ValueError.

Definition build_table (fuel : nat) (num_rounds : Z)
    : outcome (gmap Key Action) :=
  '(book, _) ← rounds fuel (Z.to_nat num_rounds) ∅ 0%nat;
  collapse book.

(** "The pair recorded on the way into a rollout gains +1 when the player
    to move at the start of the rollout wins it and -1 when that player
    loses it", as a statement about a game and a run: [state] is where the
    action [a] is recorded, the rollout starts at [result state a], and [t]
    is the terminal position it ends in. *)
Definition rollout_start_scores_positive : Prop :=
  ∀ fuel (state : State) book depth drawn a drawn1 t drawn2 r book' drawn',
    terminal_test state = false →
    choice (actions state) drawn = Done (a, drawn1) →
    depth = 0%nat ∨ terminal_test (result state a) = true →
    playout fuel (result state a) drawn1 = Done (t, drawn2) →
    build_tree fuel state book (S depth) drawn = Done (r, book', drawn') →
    ((Fin 0 < utility t (parity (result state a)))%num →
     book_get book' (hashable state) a
     = book_get book (hashable state) a + 1)
    ∧ ((utility t (parity (result state a)) < Fin 0)%num →
       book_get book' (hashable state) a
       = book_get book (hashable state) a - 1).

End Book.

(* ===================================================================== *)
(** ** A concrete game to run the cells on *)
(* ===================================================================== *)

(** A pile of tokens; the player to move takes one or two of them, and the
    player who finds the pile empty has lost.  Players are 0 and 1. *)
Record pile : Type := Pile { tokens : nat; to_move : Z }.

Definition pile_actions (s : pile) : list nat :=
  match tokens s with
  | O => []
  | S O => [1%nat]
  | _ => [1%nat; 2%nat]
  end.

Definition pile_result (s : pile) (a : nat) : pile :=
  {| tokens := tokens s - a; to_move := 1 - to_move s |}.

Definition pile_terminal_test (s : pile) : bool :=
  bool_decide (tokens s = 0%nat).

Definition pile_utility (s : pile) (player_id : Z) : num :=
  if pile_terminal_test s
  then (if bool_decide (player_id = to_move s) then Fin (-1) else Fin 1)
  else Fin 0.

Definition pile_game (start : pile) : Game := {|
  State := pile;
  Action := nat;
  Key := nat * Z;
  actions := pile_actions;
  result := pile_result;
  terminal_test := pile_terminal_test;
  utility := pile_utility;
  parity := to_move;
  hashable := λ s, (tokens s, to_move s);
  GameState := start;
|}.

(** The pile game scored with infinities instead of +1 and -1. *)
Definition pile_utility_inf (s : pile) (player_id : Z) : num :=
  if pile_terminal_test s
  then (if bool_decide (player_id = to_move s) then NegInf else PosInf)
  else Fin 0.

Definition inf_pile_game (start : pile) : Game := {|
  State := pile;
  Action := nat;
  Key := nat * Z;
  actions := pile_actions;
  result := pile_result;
  terminal_test := pile_terminal_test;
  utility := pile_utility_inf;
  parity := to_move;
  hashable := λ s, (tokens s, to_move s);
  GameState := start;
|}.

(** A game that can only be drawn: from the start the one move ends the
    game, and the utility of the end is 0 for both players. *)
Definition draw_game : Game := {|
  State := bool;
  Action := unit;
  Key := bool;
  actions := λ s, if s then [] else [()];
  result := λ _ _, true;
  terminal_test := λ s, s;
  utility := λ _ _, Fin 0;
  parity := λ s, if s then 1 else 0;
  hashable := λ s, s;
  GameState := false;
|}.

(** A game module that breaks the contract: its one position is not
    terminal and has no legal action. *)
Definition stuck_game : Game := {|
  State := unit;
  Action := unit;
  Key := unit;
  actions := λ _, [];
  result := λ s _, s;
  terminal_test := λ _, false;
  utility := λ _ _, Fin 0;
  parity := λ _, 0;
  hashable := λ s, s;
  GameState := ();
|}.

(** The positions a search started at [root] can come to: [root] itself and
    every position a legal action leads to from a non-terminal one. *)
Inductive reached {G : Game} (root : State) : State → Prop :=
  | reached_root : reached root root
  | reached_result s a :
      reached root s → terminal_test s = false → a ∈ actions s →
      reached root (result s a).


(** [clamp alpha beta x] is [x] brought into the window: what a search with
    window [(alpha, beta)] has to get right about a value. *)
Definition clamp (alpha beta x : num) : num := num_max alpha (num_min beta x).

Section Simulations.
Context {G : Game}.

(** A pruned evaluator agrees with the plain one up to the window: when the
    plain one returns [m], the pruned one returns a value with the same
    clamp. *)
Definition agree_on_window (child : State → num → num → outcome num)
    (plain : State → outcome num) (s : State) : Prop :=
  ∀ alpha beta m,
    plain s = Done m →
    ∃ r, child s alpha beta = Done r ∧ clamp alpha beta r = clamp alpha beta m.

(** [counted] returns what [pure] returns, whatever the counter. *)
Definition counts_for (counted : State → num → num → nat → outcome (num * nat))
    (pure : State → num → num → outcome num) (s : State) : Prop :=
  ∀ alpha beta x n,
    pure s alpha beta = Done x →
    ∃ n', counted s alpha beta n = Done (x, n').

(** The same for a plain evaluator. *)
Definition plain_counts_for (counted : State → nat → outcome (num * nat))
    (pure : State → outcome num) (s : State) : Prop :=
  ∀ x n, pure s = Done x → ∃ n', counted s n = Done (x, n').

(** Wherever both are started, [pruned] adds no more to the counter than
    [plain] does, and [plain] never lowers it. *)
Definition visits_no_more
    (pruned : State → num → num → nat → outcome (num * nat))
    (plain : State → nat → outcome (num * nat)) (s : State) : Prop :=
  ∀ alpha beta n n' x m m' r,
    plain s n = Done (x, n') →
    ((n <= n')%nat
     ∧ (pruned s alpha beta m = Done (r, m') → (m' + n <= n' + m)%nat)).

End Simulations.

(** Conditions on a game.  [ranked] makes the game finite: every move from
    a non-terminal position lowers a rank.  The other two are the contract
    of the game module: a position is terminal exactly when it has no
    legal action, and terminal utilities are finite numbers. *)
Definition ranked (G : Game) (rank : State → nat) : Prop :=
  ∀ (s : State) (a : Action),
    terminal_test s = false → a ∈ actions s →
    (rank (result s a) < rank s)%nat.

Definition terminal_iff_no_actions (G : Game) : Prop :=
  ∀ s : State, terminal_test s = true ↔ actions s = [].

Definition finite_utilities (G : Game) : Prop :=
  ∀ (s : State) (player_id : Z),
    terminal_test s = true → ∃ z, utility s player_id = Fin z.

(* ===================================================================== *)
(** ** Constraint satisfaction: what the cells hand to the solver *)
(* ===================================================================== *)

(** The cells build integer terms and constraints with the Z3 API and add
    them to a [Solver].  A term is read as its value, and a constraint as
    its truth, under an assignment of integers to the constants, which Z3
    tells apart by name; a solver is the list of the constraints added so
    far.  [check()], the search for an assignment, is not modelled: the
    properties are about the assignments that satisfy what was added. *)
Module Z3.

Definition assignment : Type := string → Z.
Definition term : Type := assignment → Z.
Definition constraint : Type := assignment → bool.

(** [Int(name)] and a Python integer used as a term. *)
Definition Int (name : string) : term := λ m, m name.
Definition IntVal (z : Z) : term := λ _, z.

(** [x + y], [x - y], [x * y], [-x] *)
Definition plus (x y : term) : term := λ m, x m + y m.
Definition minus (x y : term) : term := λ m, x m - y m.
Definition times (x y : term) : term := λ m, x m * y m.
Definition opp (x : term) : term := λ m, - x m.

(** [x <= y], [x < y], [x >= y], [x == y], [x != y] *)
Definition leq (x y : term) : constraint := λ m, bool_decide (x m <= y m).
Definition less (x y : term) : constraint := λ m, bool_decide (x m < y m).
Definition geq (x y : term) : constraint := λ m, bool_decide (x m >= y m).
Definition equ (x y : term) : constraint := λ m, bool_decide (x m = y m).
Definition neq (x y : term) : constraint := λ m, bool_decide (x m ≠ y m).

(** [If(c, x, y)] and [Distinct(xs)] *)
Definition If (c : constraint) (x y : term) : term :=
  λ m, if c m then x m else y m.
Definition Distinct (xs : list term) : constraint :=
  λ m, bool_decide (NoDup ((λ x, x m) <$> xs)).

(** [Solver()] and [solver.add(c1, c2, ...)] *)
Definition Solver : list constraint := [].
Definition Solver_add (solver : list constraint) (cs : list constraint)
    : list constraint :=
  solver ++ cs.

(** The assignment [m] makes every constraint of the solver true. *)
Definition satisfies (m : assignment) (solver : list constraint) : bool :=
  forallb (λ c, c m) solver.

End Z3.

(** [enumerate(xs)] *)
Definition enumerate {A : Type} (xs : list A) : list (nat * A) :=
  imap (λ i x, (i, x)) xs.

(** *** Cryptarithmetic: TWO + TWO = FOUR *)
Module Cryptarithmetic.

Definition F : Z3.term := Z3.Int "F".
Definition O : Z3.term := Z3.Int "O".
Definition R : Z3.term := Z3.Int "R".
Definition T : Z3.term := Z3.Int "T".
Definition U : Z3.term := Z3.Int "U".
Definition W : Z3.term := Z3.Int "W".

(** The solver after the four cells that add to it, in their order. *)
Definition ca_solver : list Z3.constraint :=
  let ca_solver := Z3.Solver in
  let ca_solver :=
    Z3.Solver_add ca_solver [Z3.leq (Z3.IntVal 0) F; Z3.leq F (Z3.IntVal 9)] in
  let ca_solver :=
    Z3.Solver_add ca_solver [Z3.leq (Z3.IntVal 0) O; Z3.leq O (Z3.IntVal 9)] in
  let ca_solver :=
    Z3.Solver_add ca_solver [Z3.leq (Z3.IntVal 0) R; Z3.leq R (Z3.IntVal 9)] in
  let ca_solver :=
    Z3.Solver_add ca_solver [Z3.leq (Z3.IntVal 0) T; Z3.leq T (Z3.IntVal 9)] in
  let ca_solver :=
    Z3.Solver_add ca_solver [Z3.leq (Z3.IntVal 0) U; Z3.leq U (Z3.IntVal 9)] in
  let ca_solver :=
    Z3.Solver_add ca_solver [Z3.leq (Z3.IntVal 0) W; Z3.leq W (Z3.IntVal 9)] in
  let ca_solver := Z3.Solver_add ca_solver [Z3.neq F (Z3.IntVal 0)] in
  let ca_solver := Z3.Solver_add ca_solver [Z3.neq T (Z3.IntVal 0)] in
  let ca_solver :=
    Z3.Solver_add ca_solver [Z3.Distinct [F; O; R; T; U; W]] in
  Z3.Solver_add ca_solver
    [Z3.equ
       (Z3.plus
          (Z3.plus (Z3.times (Z3.plus T T) (Z3.IntVal (10 ^ 2)))
             (Z3.times (Z3.plus W W) (Z3.IntVal (10 ^ 1))))
          (Z3.times (Z3.plus O O) (Z3.IntVal (10 ^ 0))))
       (Z3.plus
          (Z3.plus
             (Z3.plus (Z3.times F (Z3.IntVal (10 ^ 3)))
                (Z3.times O (Z3.IntVal (10 ^ 2))))
             (Z3.times U (Z3.IntVal (10 ^ 1))))
          (Z3.times R (Z3.IntVal (10 ^ 0))))].

(** The values of the six letters, in the order T, W, O, F, U, R in which
    the last cell prints them. *)
Definition letters (m : Z3.assignment) : list Z :=
  [T m; W m; O m; F m; U m; R m].

(** The assignment that gives the letters these values. *)
Definition spell (t w o f u r : Z) : Z3.assignment :=
  λ name,
    if decide (name = "T") then t
    else if decide (name = "W") then w
    else if decide (name = "O") then o
    else if decide (name = "F") then f
    else if decide (name = "U") then u
    else if decide (name = "R") then r
    else 0.

(** The ways of giving the six letters digits that satisfy the solver,
    found by trying the candidates: F is 1, T is at least 5, and R is the
    last digit of O + O. *)
Definition solutions : list (list Z) :=
  t ← seqZ 5 5; w ← seqZ 0 10; o ← seqZ 0 10; u ← seqZ 0 10;
  r ← [2 * o; 2 * o - 10];
  if Z3.satisfies (spell t w o 1 u r) ca_solver
  then [[t; w; o; 1; u; r]] else [].

End Cryptarithmetic.

(** *** Map coloring *)
Module MapColoring.

Definition colors : gmap string string :=
  {[ "0" := "Blue"; "1" := "Red"; "2" := "Green" ]}.

Definition WA : Z3.term := Z3.Int "WA".
Definition NT : Z3.term := Z3.Int "NT".
Definition SA : Z3.term := Z3.Int "SA".
Definition Q : Z3.term := Z3.Int "Q".
Definition NSW : Z3.term := Z3.Int "NSW".
Definition V : Z3.term := Z3.Int "V".
Definition T : Z3.term := Z3.Int "T".

(** The dictionary [adjacency], in insertion order. *)
Definition adjacency : list (Z3.term * list Z3.term) :=
  [(WA, [NT; SA]); (NT, [WA; SA; Q]); (SA, [WA; NT; Q; NSW; V]);
   (Q, [NT; SA; NSW]); (NSW, [SA; Q; V]); (V, [SA; NSW])].

Definition mc_solver : list Z3.constraint :=
  let mc_solver := Z3.Solver in
  let mc_solver :=
    Z3.Solver_add mc_solver [Z3.leq (Z3.IntVal 0) WA; Z3.leq WA (Z3.IntVal 2)] in
  let mc_solver :=
    Z3.Solver_add mc_solver [Z3.leq (Z3.IntVal 0) NT; Z3.leq NT (Z3.IntVal 2)] in
  let mc_solver :=
    Z3.Solver_add mc_solver [Z3.leq (Z3.IntVal 0) SA; Z3.leq SA (Z3.IntVal 2)] in
  let mc_solver :=
    Z3.Solver_add mc_solver [Z3.leq (Z3.IntVal 0) Q; Z3.leq Q (Z3.IntVal 2)] in
  let mc_solver :=
    Z3.Solver_add mc_solver
      [Z3.leq (Z3.IntVal 0) NSW; Z3.leq NSW (Z3.IntVal 2)] in
  let mc_solver :=
    Z3.Solver_add mc_solver [Z3.leq (Z3.IntVal 0) V; Z3.leq V (Z3.IntVal 2)] in
  let mc_solver :=
    Z3.Solver_add mc_solver [Z3.leq (Z3.IntVal 0) T; Z3.leq T (Z3.IntVal 2)] in
  (* for rA in adjacency: for rB in adjacency[rA]: add(rA != rB) *)
  foldl
    (λ mc_solver '(rA, rBs),
       foldl (λ mc_solver rB, Z3.Solver_add mc_solver [Z3.neq rA rB])
         mc_solver rBs)
    mc_solver adjacency.

(** [colors[mc_solver.model()[region].as_string()]], [None] for a key
    that is not in [colors]. *)
Definition color_of (m : Z3.assignment) (region : Z3.term) : option string :=
  colors !! pretty (region m).

(** The assignment of the recorded run: WA, Q, V red; NT, NSW, T blue; SA
    green. *)
Definition recorded : Z3.assignment :=
  λ name,
    if decide (name = "WA") then 1
    else if decide (name = "SA") then 2
    else if decide (name = "Q") then 1
    else if decide (name = "V") then 1
    else 0.

End MapColoring.

(** *** N-queens *)
Module NQueens.

Definition Abs (x : Z3.term) : Z3.term :=
  Z3.If (Z3.geq x (Z3.IntVal 0)) x (Z3.opp x).

(** The name of the constant [Int('Q{}'.format(i))]. *)
Definition queen_name (i : nat) : string := "Q" +:+ pretty i.

(** [nqueens(N)], for [N >= 1]. *)
Definition nqueens (N : nat) : list Z3.constraint :=
  let nq_solver := Z3.Solver in
  let queens := (λ i, Z3.Int (queen_name i)) <$> seq 0 N in
  let nq_solver :=
    Z3.Solver_add nq_solver
      (queens ≫= λ q,
         [Z3.leq (Z3.IntVal 0) q; Z3.less q (Z3.IntVal (Z.of_nat N))]) in
  let nq_solver := Z3.Solver_add nq_solver [Z3.Distinct queens] in
  foldl
    (λ nq_solver '(i, q1),
       foldl
         (λ nq_solver '(j, q2),
            if decide (i = j) then nq_solver
            else
              Z3.Solver_add nq_solver
                [Z3.neq (Abs (Z3.minus q1 q2))
                   (Z3.IntVal (Z.abs (Z.of_nat i - Z.of_nat j)))])
         nq_solver (enumerate queens))
    nq_solver (enumerate queens).

(** The row of the queen of column [i] under an assignment. *)
Definition row (m : Z3.assignment) (i : nat) : Z := m (queen_name i).

(** [N] queens, one per column, none attacking another: all on the board,
    no two in one row, no two on one diagonal. *)
Definition non_attacking (N : nat) (q : nat → Z) : Prop :=
  (∀ i, (i < N)%nat → 0 <= q i < Z.of_nat N)
  ∧ (∀ i j, (i < N)%nat → (j < N)%nat → i ≠ j →
       q i ≠ q j ∧ Z.abs (q i - q j) ≠ Z.abs (Z.of_nat i - Z.of_nat j)).

(** The assignment that puts the queen of column [i] on the [i]-th of the
    given rows. *)
Fixpoint place_from (i : nat) (rows : list Z) (name : string) : Z :=
  match rows with
  | [] => 0
  | r :: rows =>
      if decide (name = queen_name i) then r else place_from (S i) rows name
  end.

Definition place (rows : list Z) : Z3.assignment := place_from 0 rows.

(** Odd rows first, then even rows: a placement for 16 and for 64 queens. *)
Definition odds_then_evens (N : nat) : list Z :=
  ((λ i, 2 * Z.of_nat i + 1) <$> seq 0 (N / 2))
  ++ ((λ i, 2 * Z.of_nat i) <$> seq 0 (N / 2)).

(** The same with the even rows swapped in pairs: a placement for 8 and
    for 32 queens. *)
Definition odds_then_swapped_evens (N : nat) : list Z :=
  ((λ i, 2 * Z.of_nat i + 1) <$> seq 0 (N / 2))
  ++ ((λ i, if Nat.even i then 2 * Z.of_nat i + 2 else 2 * Z.of_nat i - 2)
      <$> seq 0 (N / 2)).

(** The board sizes of the timing loop. *)
Definition sizes : list nat := [8; 16; 32; 64]%nat.

End NQueens.

(* ===================================================================== *)
(** * Properties *)
(* ===================================================================== *)

(** ** The order on numbers *)

Ltac num_crush :=
  intros;
  repeat match goal with x : num |- _ => destruct x end;
  unfold num_le, num_lt, num_max, num_min, num_ltb, num_leb in *;
  simpl in *;
  repeat match goal with
    | |- context [Z.leb ?a ?b] => destruct (Z.leb_spec a b); simpl in *
    | H : context [Z.leb ?a ?b] |- _ => destruct (Z.leb_spec a b); simpl in *
    end;
  simplify_eq; try done; try (f_equal; lia); try lia.

Lemma num_le_refl (x : num) : (x <= x)%num.
Proof. num_crush. Qed.

Lemma num_le_trans (x y z : num) : (x <= y)%num → (y <= z)%num → (x <= z)%num.
Proof. num_crush. Qed.

Lemma num_le_antisym (x y : num) : (x <= y)%num → (y <= x)%num → x = y.
Proof. num_crush. Qed.

Lemma num_not_le (x y : num) : ¬ (x <= y)%num ↔ (y < x)%num.
Proof.
  unfold num_lt, num_le, num_ltb. destruct (num_leb x y); naive_solver.
Qed.

Lemma num_lt_le (x y : num) : (x < y)%num → (x <= y)%num.
Proof. num_crush. Qed.

Lemma num_le_lt_trans (x y z : num) : (x <= y)%num → (y < z)%num → (x < z)%num.
Proof. num_crush. Qed.

Lemma num_lt_le_trans (x y z : num) : (x < y)%num → (y <= z)%num → (x < z)%num.
Proof. num_crush. Qed.

Lemma num_max_comm (x y : num) : num_max x y = num_max y x.
Proof. num_crush. Qed.

Lemma num_min_assoc (x y z : num) :
  num_min x (num_min y z) = num_min (num_min x y) z.
Proof. num_crush. Qed.

Lemma num_min_le_l (x y : num) : (num_min x y <= x)%num.
Proof. num_crush. Qed.

Lemma num_max_ge_l (x y : num) : (x <= num_max x y)%num.
Proof. num_crush. Qed.

Lemma num_min_PosInf_l (x : num) : num_min PosInf x = x.
Proof. num_crush. Qed.

Lemma num_min_PosInf_r (x : num) : num_min x PosInf = x.
Proof. num_crush. Qed.

Lemma num_max_NegInf_l (x : num) : num_max NegInf x = x.
Proof. num_crush. Qed.

Lemma num_NegInf_le (x : num) : (NegInf <= x)%num.
Proof. num_crush. Qed.

(** ** Outcomes *)

Lemma bind_Done {A B : Type} (m : outcome A) (f : A → outcome B) (b : B) :
  m ≫= f = Done b ↔ ∃ a, m = Done a ∧ f a = Done b.
Proof.
  unfold mbind, outcome_bind. destruct m as [a| |]; split.
  - eauto.
  - by intros (a' & [= ->] & ?).
  - done.
  - by intros (? & ? & ?).
  - done.
  - by intros (? & ? & ?).
Qed.

(** ** Clamping *)

Lemma clamp_min (alpha beta x y : num) :
  clamp alpha beta (num_min x y)
  = num_min (clamp alpha beta x) (clamp alpha beta y).
Proof. unfold clamp. num_crush. Qed.

Lemma clamp_max (alpha beta x y : num) :
  clamp alpha beta (num_max x y)
  = num_max (clamp alpha beta x) (clamp alpha beta y).
Proof. unfold clamp. num_crush. Qed.

Lemma clamp_lower_beta (alpha beta v x : num) :
  clamp alpha (num_min beta v) x = clamp alpha beta (num_min v x).
Proof. unfold clamp. by rewrite num_min_assoc. Qed.

Lemma clamp_raise_alpha (alpha beta v x : num) :
  (v <= beta)%num →
  clamp (num_max alpha v) beta x = clamp alpha beta (num_max v x).
Proof. unfold clamp. num_crush. Qed.

Lemma clamp_mono (alpha beta x y : num) :
  (x <= y)%num → (clamp alpha beta x <= clamp alpha beta y)%num.
Proof. unfold clamp. num_crush. Qed.

Lemma clamp_ge (alpha beta x : num) : (alpha <= clamp alpha beta x)%num.
Proof. unfold clamp. num_crush. Qed.

Lemma clamp_le (alpha beta x : num) :
  (clamp alpha beta x <= num_max alpha beta)%num.
Proof. unfold clamp. num_crush. Qed.

Lemma clamp_low (alpha beta x : num) :
  (x <= alpha)%num → clamp alpha beta x = alpha.
Proof. unfold clamp. num_crush. Qed.

Lemma clamp_high (alpha beta x : num) :
  (beta <= x)%num → clamp alpha beta x = num_max alpha beta.
Proof. unfold clamp. num_crush. Qed.

Lemma clamp_PosInf (alpha x : num) : clamp alpha PosInf x = num_max alpha x.
Proof. unfold clamp. by rewrite num_min_PosInf_l. Qed.

Lemma num_min_min_absorb (beta v x : num) :
  num_min (num_min beta v) (num_min v x) = num_min beta (num_min v x).
Proof. num_crush. Qed.

Lemma num_max_max_absorb (alpha v x : num) :
  num_max (num_max alpha v) (num_max v x) = num_max alpha (num_max v x).
Proof. num_crush. Qed.

Lemma num_max_eq_ltb (b r m : num) :
  num_max b r = num_max b m →
  num_ltb b r = num_ltb b m ∧ (num_ltb b m = true → r = m).
Proof. intros H. split; [|intros Hlt]; num_crush. Qed.

Lemma num_max_not_lt (b r : num) : num_ltb b r = false → num_max b r = b.
Proof. num_crush. Qed.

Lemma num_max_lt (b r : num) : num_ltb b r = true → num_max b r = r.
Proof. num_crush. Qed.

(* ===================================================================== *)
(** ** The search returns *)
(* ===================================================================== *)

Section SearchReturns.
Context {G : Game}.

Lemma min_value_loop_returns child (s : State) todo v alpha beta :
  (∀ a al be, a ∈ todo → ∃ x, child (result s a) al be = Done x) →
  ∃ r, min_value_loop child s todo v alpha beta = Done r.
Proof.
  revert v beta. induction todo as [|a todo IH]; intros v beta Hch; simpl.
  - eauto.
  - destruct (Hch a alpha beta) as [x ->]; [left|]. simpl.
    destruct (num_leb _ alpha); [eauto|].
    apply IH. intros. apply Hch. by right.
Qed.

Lemma max_value_loop_returns child (s : State) todo v alpha beta :
  (∀ a al be, a ∈ todo → ∃ x, child (result s a) al be = Done x) →
  ∃ r, max_value_loop child s todo v alpha beta = Done r.
Proof.
  revert v alpha. induction todo as [|a todo IH]; intros v alpha Hch; simpl.
  - eauto.
  - destruct (Hch a alpha beta) as [x ->]; [left|]. simpl.
    destruct (num_leb beta _); [eauto|].
    apply IH. intros. apply Hch. by right.
Qed.

Lemma search_loop_returns child (s : State) todo alpha beta best_score best :
  (∀ a al be, a ∈ todo → ∃ x, child (result s a) al be = Done x) →
  ∃ r, search_loop child s todo alpha beta best_score best = Done r.
Proof.
  revert alpha best_score best.
  induction todo as [|a todo IH]; intros alpha best_score best Hch; simpl.
  - eauto.
  - destruct (Hch a alpha beta) as [x ->]; [left|]. simpl.
    destruct (num_ltb best_score x); apply IH; intros; apply Hch; by right.
Qed.

Lemma evaluators_return rank :
  ranked G rank →
  ∀ fuel (s : State) alpha beta,
    (rank s < fuel)%nat →
    (∃ r, min_value fuel s alpha beta = Done r)
    ∧ (∃ r, max_value fuel s alpha beta = Done r).
Proof.
  intros Hrank fuel.
  induction fuel as [|fuel IH]; intros s alpha beta Hlt; [lia|].
  simpl. destruct (terminal_test s) eqn:Hterm; [eauto|].
  split.
  - apply min_value_loop_returns. intros a al be Ha.
    apply IH. specialize (Hrank s a Hterm Ha). lia.
  - apply max_value_loop_returns. intros a al be Ha.
    apply IH. specialize (Hrank s a Hterm Ha). lia.
Qed.

Lemma alpha_beta_search_returns rank :
  ranked G rank →
  ∀ fuel (s : State),
    terminal_test s = false → (rank s <= fuel)%nat →
    ∃ r, alpha_beta_search fuel s = Done r.
Proof.
  intros Hrank fuel s Hterm Hle. apply search_loop_returns.
  intros a al be Ha. eapply evaluators_return; [done|].
  specialize (Hrank s a Hterm Ha). lia.
Qed.

(** More fuel does not change what a call returns. *)
Lemma min_value_loop_mono child child' (s : State) todo v alpha beta r :
  (∀ a al be x, a ∈ todo →
     child (result s a) al be = Done x → child' (result s a) al be = Done x) →
  min_value_loop child s todo v alpha beta = Done r →
  min_value_loop child' s todo v alpha beta = Done r.
Proof.
  revert v beta. induction todo as [|a todo IH]; intros v beta Hch; simpl.
  - done.
  - intros H. apply bind_Done in H as (x & Hx & H).
    rewrite (Hch a alpha beta x); [|left|done]. simpl.
    destruct (num_leb _ alpha); [done|].
    apply IH; [|done]. intros. apply Hch; [by right|done].
Qed.

Lemma max_value_loop_mono child child' (s : State) todo v alpha beta r :
  (∀ a al be x, a ∈ todo →
     child (result s a) al be = Done x → child' (result s a) al be = Done x) →
  max_value_loop child s todo v alpha beta = Done r →
  max_value_loop child' s todo v alpha beta = Done r.
Proof.
  revert v alpha. induction todo as [|a todo IH]; intros v alpha Hch; simpl.
  - done.
  - intros H. apply bind_Done in H as (x & Hx & H).
    rewrite (Hch a alpha beta x); [|left|done]. simpl.
    destruct (num_leb beta _); [done|].
    apply IH; [|done]. intros. apply Hch; [by right|done].
Qed.

Lemma search_loop_mono child child' (s : State) todo alpha beta b best r :
  (∀ a al be x, a ∈ todo →
     child (result s a) al be = Done x → child' (result s a) al be = Done x) →
  search_loop child s todo alpha beta b best = Done r →
  search_loop child' s todo alpha beta b best = Done r.
Proof.
  revert alpha b best.
  induction todo as [|a todo IH]; intros alpha b best Hch; simpl.
  - done.
  - intros H. apply bind_Done in H as (x & Hx & H).
    rewrite (Hch a alpha beta x); [|left|done]. simpl.
    destruct (num_ltb b x); (apply IH; [|done]);
      intros; (apply Hch; [by right|done]).
Qed.

Lemma evaluators_fuel_mono fuel :
  ∀ fuel' (s : State) alpha beta r,
    (fuel <= fuel')%nat →
    (min_value fuel s alpha beta = Done r →
     min_value fuel' s alpha beta = Done r)
    ∧ (max_value fuel s alpha beta = Done r →
       max_value fuel' s alpha beta = Done r).
Proof.
  induction fuel as [|fuel IH]; intros fuel' s alpha beta r Hle.
  - simpl. done.
  - destruct fuel' as [|fuel']; [lia|]. simpl.
    destruct (terminal_test s); [done|]. split.
    + apply min_value_loop_mono. intros a al be x _.
      apply IH. lia.
    + apply max_value_loop_mono. intros a al be x _.
      apply IH. lia.
Qed.

Lemma alpha_beta_search_fuel_mono fuel fuel' (s : State) r :
  (fuel <= fuel')%nat →
  alpha_beta_search fuel s = Done r → alpha_beta_search fuel' s = Done r.
Proof.
  intros Hle. apply search_loop_mono. intros a al be x _.
  by apply evaluators_fuel_mono.
Qed.

End SearchReturns.

(* ===================================================================== *)
(** ** Pruning against plain minimax *)
(* ===================================================================== *)

Section Pruning.
Context {G : Game}.

Lemma plain_loop_returns pick child (s : State) todo v :
  (∀ a, a ∈ todo → ∃ x, child (result s a) = Done x) →
  ∃ r, plain_loop pick child s todo v = Done r.
Proof.
  revert v. induction todo as [|a todo IH]; intros v Hch; simpl.
  - eauto.
  - destruct (Hch a) as [x ->]; [left|]. simpl.
    apply IH. intros. apply Hch. by right.
Qed.

Lemma plain_search_loop_returns child (s : State) todo b best :
  (∀ a, a ∈ todo → ∃ x, child (result s a) = Done x) →
  ∃ r, plain_search_loop child s todo b best = Done r.
Proof.
  revert b best. induction todo as [|a todo IH]; intros b best Hch; simpl.
  - eauto.
  - destruct (Hch a) as [x ->]; [left|]. simpl.
    destruct (num_ltb b x); apply IH; intros; apply Hch; by right.
Qed.

Lemma plain_evaluators_return rank :
  ranked G rank →
  ∀ fuel (s : State),
    (rank s < fuel)%nat →
    (∃ r, plain_min_value fuel s = Done r)
    ∧ (∃ r, plain_max_value fuel s = Done r).
Proof.
  intros Hrank fuel.
  induction fuel as [|fuel IH]; intros s Hlt; [lia|].
  simpl. destruct (terminal_test s) eqn:Hterm; [eauto|].
  split; apply plain_loop_returns; intros a Ha; apply IH;
    specialize (Hrank s a Hterm Ha); lia.
Qed.

Lemma plain_minimax_search_returns rank :
  ranked G rank →
  ∀ fuel (s : State),
    terminal_test s = false → (rank s <= fuel)%nat →
    ∃ r, plain_minimax_search fuel s = Done r.
Proof.
  intros Hrank fuel s Hterm Hle. apply plain_search_loop_returns.
  intros a Ha. eapply plain_evaluators_return; [done|].
  specialize (Hrank s a Hterm Ha). lia.
Qed.

(** The plain loops only move their running value one way. *)
Lemma plain_min_loop_le child (s : State) todo v m :
  plain_loop num_min child s todo v = Done m → (m <= v)%num.
Proof.
  revert v. induction todo as [|a todo IH]; intros v; simpl.
  - intros [= ->]. apply num_le_refl.
  - intros H. apply bind_Done in H as (x & _ & H).
    eapply num_le_trans; [by apply IH|]. apply num_min_le_l.
Qed.

Lemma plain_max_loop_ge child (s : State) todo v m :
  plain_loop num_max child s todo v = Done m → (v <= m)%num.
Proof.
  revert v. induction todo as [|a todo IH]; intros v; simpl.
  - intros [= ->]. apply num_le_refl.
  - intros H. apply bind_Done in H as (x & _ & H).
    eapply num_le_trans; [|by apply IH]. apply num_max_ge_l.
Qed.

Lemma min_value_loop_agrees child plain (s : State) todo :
  (∀ a, a ∈ todo → agree_on_window child plain (result s a)) →
  ∀ v mv alpha beta m,
    clamp alpha beta v = clamp alpha beta mv →
    plain_loop num_min plain s todo mv = Done m →
    ∃ r, min_value_loop child s todo v alpha (num_min beta v) = Done r
         ∧ clamp alpha beta r = clamp alpha beta m.
Proof.
  induction todo as [|a todo IH]; intros Hch v mv alpha beta m Hv; simpl.
  - intros [= ->]. eauto.
  - intros H. apply bind_Done in H as (M & HM & H).
    destruct (Hch a ltac:(left) alpha (num_min beta v) M HM) as (x & -> & Hx).
    simpl.
    assert (clamp alpha beta (num_min v x) = clamp alpha beta (num_min mv M))
      as Hv'.
    { rewrite <- clamp_lower_beta, Hx, clamp_lower_beta.
      by rewrite !clamp_min, Hv. }
    destruct (num_leb (num_min v x) alpha) eqn:Hcut.
    + eexists; split; [done|].
      apply num_le_antisym.
      * rewrite (clamp_low _ _ _ Hcut). apply clamp_ge.
      * rewrite Hv'. apply clamp_mono. by eapply plain_min_loop_le.
    + rewrite num_min_min_absorb.
      apply (IH (λ a' Ha', Hch a' (list_elem_of_further _ _ _ Ha'))
               _ _ _ _ _ Hv' H).
Qed.

Lemma max_value_loop_agrees child plain (s : State) todo :
  (∀ a, a ∈ todo → agree_on_window child plain (result s a)) →
  ∀ v mv alpha beta m,
    (v <= beta)%num →
    clamp alpha beta v = clamp alpha beta mv →
    plain_loop num_max plain s todo mv = Done m →
    ∃ r, max_value_loop child s todo v (num_max alpha v) beta = Done r
         ∧ clamp alpha beta r = clamp alpha beta m.
Proof.
  induction todo as [|a todo IH]; intros Hch v mv alpha beta m Hle Hv; simpl.
  - intros [= ->]. eauto.
  - intros H. apply bind_Done in H as (M & HM & H).
    destruct (Hch a ltac:(left) (num_max alpha v) beta M HM) as (x & -> & Hx).
    simpl.
    assert (clamp alpha beta (num_max v x) = clamp alpha beta (num_max mv M))
      as Hv'.
    { rewrite <- (clamp_raise_alpha _ _ _ _ Hle), Hx,
        (clamp_raise_alpha _ _ _ _ Hle).
      by rewrite !clamp_max, Hv. }
    destruct (num_leb beta (num_max v x)) eqn:Hcut.
    + eexists; split; [done|].
      apply num_le_antisym.
      * rewrite Hv'. apply clamp_mono. by eapply plain_max_loop_ge.
      * rewrite (clamp_high _ _ _ Hcut). apply clamp_le.
    + rewrite num_max_max_absorb.
      eapply (IH (λ a' Ha', Hch a' (list_elem_of_further _ _ _ Ha')));
        [|done..].
      apply num_lt_le. apply num_not_le. unfold num_le. by rewrite Hcut.
Qed.

Lemma evaluators_agree fuel (s : State) :
  agree_on_window (min_value fuel) (plain_min_value fuel) s
  ∧ agree_on_window (max_value fuel) (plain_max_value fuel) s.
Proof.
  revert s. induction fuel as [|fuel IH]; intros s.
  - split; intros alpha beta m; simpl; done.
  - split; intros alpha beta m; simpl;
      destruct (terminal_test s).
    + intros [= ->]. eauto.
    + intros H.
      pose proof (min_value_loop_agrees (max_value fuel)
        (plain_max_value fuel) s (actions s) (λ a _, proj2 (IH _))
        PosInf PosInf alpha beta m eq_refl H) as Hloop.
      by rewrite num_min_PosInf_r in Hloop.
    + intros [= ->]. eauto.
    + intros H.
      pose proof (max_value_loop_agrees (min_value fuel)
        (plain_min_value fuel) s (actions s) (λ a _, proj1 (IH _))
        NegInf NegInf alpha beta m (num_NegInf_le _) eq_refl H) as Hloop.
      by rewrite num_max_comm, num_max_NegInf_l in Hloop.
Qed.

Lemma search_loop_agrees child plain (s : State) todo :
  (∀ a, a ∈ todo → agree_on_window child plain (result s a)) →
  ∀ b best r,
    plain_search_loop plain s todo b best = Done r →
    search_loop child s todo b PosInf b best = Done r.
Proof.
  induction todo as [|a todo IH]; intros Hch b best r; simpl.
  - done.
  - intros H. apply bind_Done in H as (M & HM & H).
    destruct (Hch a ltac:(left) b PosInf M HM) as (x & -> & Hx).
    simpl. rewrite !clamp_PosInf in Hx.
    apply num_max_eq_ltb in Hx as [Hlt Heq]. rewrite Hlt.
    destruct (num_ltb b M) eqn:HbM.
    + rewrite (Heq eq_refl). rewrite (num_max_lt _ _ HbM).
      apply IH; [|done]. intros. apply Hch. by right.
    + rewrite (num_max_not_lt b x) by done.
      apply IH; [|done]. intros. apply Hch. by right.
Qed.

Lemma alpha_beta_search_agrees fuel (s : State) r :
  plain_minimax_search fuel s = Done r → alpha_beta_search fuel s = Done r.
Proof.
  apply search_loop_agrees. intros a _. apply evaluators_agree.
Qed.

End Pruning.

(* ===================================================================== *)
(** ** The pile game is a game *)
(* ===================================================================== *)

Lemma pile_ranked start : ranked (pile_game start) tokens.
Proof.
  intros [n p] a. simpl. unfold pile_terminal_test, pile_actions. simpl.
  destruct n as [|[|n]]; simpl; intros _ Ha.
  - by apply elem_of_nil in Ha.
  - apply list_elem_of_singleton in Ha as ->. lia.
  - apply elem_of_cons in Ha as [->|Ha]; [lia|].
    apply list_elem_of_singleton in Ha as ->. lia.
Qed.

Lemma pile_terminal_iff start : terminal_iff_no_actions (pile_game start).
Proof.
  intros [n p]. simpl. unfold pile_terminal_test, pile_actions. simpl.
  destruct n as [|[|n]]; simpl; split; intros H; try done;
    by apply bool_decide_eq_true in H.
Qed.

Lemma pile_finite_utilities start : finite_utilities (pile_game start).
Proof.
  intros s p. simpl. unfold pile_utility. intros ->.
  destruct (bool_decide _); eauto.
Qed.

Lemma draw_ranked : ranked draw_game (λ s : bool, if s then 0%nat else 1%nat).
Proof. intros [|] a; simpl; [done|]. lia. Qed.

Lemma draw_terminal_iff : terminal_iff_no_actions draw_game.
Proof. intros [|]; simpl; split; done. Qed.

(** C1: on a finite game, from every non-terminal position, alpha-beta
    search returns what plain unpruned minimax returns with the same
    first-action-wins choice at the root over the same order of actions:
    both return, and they return the same action. *)
Theorem alpha_beta_search_matches_minimax (G : Game) (rank : State → nat) :
  ranked G rank →
  ∀ fuel (s : State),
    terminal_test s = false → (rank s <= fuel)%nat →
    ∃ r, plain_minimax_search fuel s = Done r
         ∧ alpha_beta_search fuel s = Done r.
Proof.
  intros Hrank fuel s Hterm Hle.
  destruct (plain_minimax_search_returns rank Hrank fuel s Hterm Hle)
    as [r Hr].
  exists r. split; [done|]. by apply alpha_beta_search_agrees.
Qed.

Lemma alpha_beta_search_matches_minimax_witness :
  ∃ r, plain_minimax_search (G := pile_game (Pile 5 0)) 5 (Pile 5 0) = Done r
       ∧ alpha_beta_search (G := pile_game (Pile 5 0)) 5 (Pile 5 0) = Done r.
Proof.
  apply (alpha_beta_search_matches_minimax (pile_game (Pile 5 0)) tokens
           (pile_ranked _)).
  - reflexivity.
  - simpl. lia.
Defined.

(* ===================================================================== *)
(** ** The move returned is legal *)
(* ===================================================================== *)

Section LegalMove.
Context {G : Game}.
Hypothesis Hterm : terminal_iff_no_actions G.
Hypothesis Hfin : finite_utilities G.

Lemma min_value_loop_finite child (s : State) todo v alpha beta r :
  (∀ a al be x, a ∈ todo →
     child (result s a) al be = Done x → ∃ z, x = Fin z) →
  (v = PosInf ∧ todo ≠ []) ∨ (∃ z, v = Fin z) →
  min_value_loop child s todo v alpha beta = Done r →
  ∃ z, r = Fin z.
Proof.
  revert v beta. induction todo as [|a todo IH]; intros v beta Hch Hv; simpl.
  - intros [= ->]. by destruct Hv as [[_ ?]|?].
  - intros H. apply bind_Done in H as (x & Hx & H).
    destruct (Hch a alpha beta x ltac:(left) Hx) as [zx ->].
    assert (∃ z, num_min v (Fin zx) = Fin z) as Hv'.
    { destruct Hv as [[-> _]|[z ->]]; [by eexists|].
      unfold num_min. destruct (num_ltb _ _); eauto. }
    destruct (num_leb _ alpha).
    + injection H as <-. done.
    + eapply IH; [|by right|done]. intros. eapply Hch; [by right|done].
Qed.

Lemma max_value_loop_finite child (s : State) todo v alpha beta r :
  (∀ a al be x, a ∈ todo →
     child (result s a) al be = Done x → ∃ z, x = Fin z) →
  (v = NegInf ∧ todo ≠ []) ∨ (∃ z, v = Fin z) →
  max_value_loop child s todo v alpha beta = Done r →
  ∃ z, r = Fin z.
Proof.
  revert v alpha. induction todo as [|a todo IH]; intros v alpha Hch Hv; simpl.
  - intros [= ->]. by destruct Hv as [[_ ?]|?].
  - intros H. apply bind_Done in H as (x & Hx & H).
    destruct (Hch a alpha beta x ltac:(left) Hx) as [zx ->].
    assert (∃ z, num_max v (Fin zx) = Fin z) as Hv'.
    { destruct Hv as [[-> _]|[z ->]]; [by eexists|].
      unfold num_max. destruct (num_ltb _ _); eauto. }
    destruct (num_leb beta _).
    + injection H as <-. done.
    + eapply IH; [|by right|done]. intros. eapply Hch; [by right|done].
Qed.

Lemma non_terminal_has_actions (s : State) :
  terminal_test s = false → actions s ≠ [].
Proof.
  intros Hs Hnil. apply Hterm in Hnil. congruence.
Qed.

Lemma evaluators_finite fuel :
  ∀ (s : State) alpha beta r,
    (min_value fuel s alpha beta = Done r → ∃ z, r = Fin z)
    ∧ (max_value fuel s alpha beta = Done r → ∃ z, r = Fin z).
Proof.
  induction fuel as [|fuel IH]; intros s alpha beta r; simpl; [done|].
  destruct (terminal_test s) eqn:Hs.
  - split; intros [= <-]; by apply Hfin.
  - split.
    + apply min_value_loop_finite.
      * intros a al be x _. apply IH.
      * left. split; [done|]. by apply non_terminal_has_actions.
    + apply max_value_loop_finite.
      * intros a al be x _. apply IH.
      * left. split; [done|]. by apply non_terminal_has_actions.
Qed.

Lemma search_loop_member child (s : State) todo alpha beta b best r :
  search_loop child s todo alpha beta b best = Done r →
  r = best ∨ ∃ a, r = Some a ∧ a ∈ todo.
Proof.
  revert alpha b best. induction todo as [|a todo IH]; intros alpha b best.
  - simpl. intros [= ->]. by left.
  - simpl. intros H. apply bind_Done in H as (x & Hx & H).
    destruct (num_ltb b x); apply IH in H as [->|(a' & -> & Ha')].
    + right. exists a. split; [done|left].
    + right. exists a'. split; [done|by right].
    + by left.
    + right. exists a'. split; [done|by right].
Qed.

End LegalMove.

(** C2: on a finite game whose terminal positions are those without legal
    action and whose utilities are finite, alpha-beta search from a
    non-terminal position with at least one legal action returns one of the
    legal actions of that position, never [None]. *)
Theorem alpha_beta_search_legal (G : Game) (rank : State → nat) :
  ranked G rank → terminal_iff_no_actions G → finite_utilities G →
  ∀ fuel (s : State),
    terminal_test s = false → actions s ≠ [] → (rank s <= fuel)%nat →
    ∃ a, alpha_beta_search fuel s = Done (Some a) ∧ a ∈ actions s.
Proof.
  intros Hrank Hterm Hfin fuel s Hs Hacts Hle.
  destruct (alpha_beta_search_returns rank Hrank fuel s Hs Hle) as [r Hr].
  unfold alpha_beta_search in *.
  destruct (actions s) as [|a todo] eqn:Ha; [done|].
  simpl in Hr. apply bind_Done in Hr as (x & Hx & Hr).
  destruct (proj1 (evaluators_finite Hterm Hfin fuel _ _ _ _) Hx) as [z ->].
  simpl in Hr. simpl. rewrite Hx. simpl.
  apply search_loop_member in Hr as Hmem. rewrite Hr.
  destruct Hmem as [->|(a' & -> & Ha')].
  - exists a. split; [done|left].
  - exists a'. split; [done|by right].
Qed.

(** Finite utilities are needed: scored with infinities, a pile of three
    is lost at -infinity whatever the move, no value exceeds the initial
    [best_score], and the search returns [None]. *)
Example search_scored_with_infinities :
  alpha_beta_search (G := inf_pile_game (Pile 3 0)) 3 (Pile 3 0) = Done None
  ∧ alpha_beta_search (G := pile_game (Pile 3 0)) 3 (Pile 3 0)
    = Done (Some 1%nat).
Proof. split; reflexivity. Qed.

Lemma alpha_beta_search_legal_witness :
  ∃ a, alpha_beta_search (G := pile_game (Pile 4 0)) 4 (Pile 4 0)
       = Done (Some a)
       ∧ a ∈ actions (Game := pile_game (Pile 4 0)) (Pile 4 0).
Proof.
  apply (alpha_beta_search_legal (pile_game (Pile 4 0)) tokens
           (pile_ranked _) (pile_terminal_iff _) (pile_finite_utilities _)).
  - reflexivity.
  - discriminate.
  - simpl. lia.
Defined.

(* ===================================================================== *)
(** ** Terminal values *)
(* ===================================================================== *)

(** With player 1 to move on a pile of one token, the only move empties the
    pile and player 0, who is to move next, has lost.  Both evaluators
    return -1 there, the utility for player 0; for player 1, who started
    the search, the utility is +1. *)
Example terminal_value_from_parity_1 :
  let G := pile_game (Pile 1 1) in
  let s := result (Pile 1 1) 1%nat in
  terminal_test s = true
  ∧ min_value 1 s NegInf PosInf = Done (Fin (-1))
  ∧ max_value 1 s NegInf PosInf = Done (Fin (-1))
  ∧ utility s (parity (Pile 1 1)) = Fin 1.
Proof. repeat split. Qed.




(* ===================================================================== *)
(** ** The evaluator loops follow the rules *)
(* ===================================================================== *)

Section Rules.
Context {G : Game}.

Lemma min_value_loop_run child (s : State) todo v alpha beta r :
  min_value_loop child s todo v alpha beta = Done r
  ↔ min_run child s todo v alpha beta r.
Proof.
  split.
  - revert v beta. induction todo as [|a todo IH]; intros v beta; simpl.
    + intros [= ->]. constructor.
    + intros H. apply bind_Done in H as (x & Hx & H).
      destruct (num_leb (num_min v x) alpha) eqn:Hcut.
      * injection H as <-. by apply min_run_cutoff.
      * eapply min_run_next; [done| |by apply IH].
        unfold num_le. by rewrite Hcut.
  - induction 1 as [|a todo v alpha beta x Hx Hcut
                    |a todo v alpha beta x r Hx Hcut _ IH]; simpl.
    + done.
    + rewrite Hx. simpl. by rewrite Hcut.
    + rewrite Hx. simpl. apply not_true_is_false in Hcut.
      by rewrite Hcut.
Qed.

Lemma max_value_loop_run child (s : State) todo v alpha beta r :
  max_value_loop child s todo v alpha beta = Done r
  ↔ max_run child s todo v alpha beta r.
Proof.
  split.
  - revert v alpha. induction todo as [|a todo IH]; intros v alpha; simpl.
    + intros [= ->]. constructor.
    + intros H. apply bind_Done in H as (x & Hx & H).
      destruct (num_leb beta (num_max v x)) eqn:Hcut.
      * injection H as <-. by apply max_run_cutoff.
      * eapply max_run_next; [done| |by apply IH].
        unfold num_le. by rewrite Hcut.
  - induction 1 as [|a todo v alpha beta x Hx Hcut
                    |a todo v alpha beta x r Hx Hcut _ IH]; simpl.
    + done.
    + rewrite Hx. simpl. by rewrite Hcut.
    + rewrite Hx. simpl. apply not_true_is_false in Hcut.
      by rewrite Hcut.
Qed.

End Rules.

(** C4: at a non-terminal position of a finite game, for every window,
    [min_value] returns, and it returns exactly what the rules of the
    minimizing loop give when started with running value +infinity over
    the position's actions: each child goes to [max_value] with the current
    window, the running value becomes the minimum so far, a running value
    [<= alpha] is returned at once, and otherwise [beta] becomes
    [min(beta, v)] for the next sibling.  [max_value] does the same from
    -infinity, returning at once on [v >= beta] and raising [alpha] to
    [max(alpha, v)]. *)
Theorem evaluators_follow_the_rules (G : Game) (rank : State → nat) :
  ranked G rank →
  ∀ fuel (s : State) alpha beta,
    terminal_test s = false → (rank s <= fuel)%nat →
    (∃ r, min_value (S fuel) s alpha beta = Done r)
    ∧ (∀ r, min_value (S fuel) s alpha beta = Done r
            ↔ min_run (max_value fuel) s (actions s) PosInf alpha beta r)
    ∧ (∃ r, max_value (S fuel) s alpha beta = Done r)
    ∧ (∀ r, max_value (S fuel) s alpha beta = Done r
            ↔ max_run (min_value fuel) s (actions s) NegInf alpha beta r).
Proof.
  intros Hrank fuel s alpha beta Hs Hle.
  destruct (evaluators_return rank Hrank (S fuel) s alpha beta ltac:(lia))
    as [Hmin Hmax].
  repeat split; try done; simpl; rewrite Hs.
  - apply min_value_loop_run.
  - apply min_value_loop_run.
  - apply max_value_loop_run.
  - apply max_value_loop_run.
Qed.

Lemma evaluators_follow_the_rules_witness :
  (∃ r, min_value (G := pile_game (Pile 3 0)) 4 (Pile 3 0) (Fin 0) PosInf
        = Done r)
  ∧ (∀ r, min_value (G := pile_game (Pile 3 0)) 4 (Pile 3 0) (Fin 0) PosInf
          = Done r
          ↔ min_run (G := pile_game (Pile 3 0)) (max_value 3) (Pile 3 0)
              (actions (Game := pile_game (Pile 3 0)) (Pile 3 0))
              PosInf (Fin 0) PosInf r)
  ∧ (∃ r, max_value (G := pile_game (Pile 3 0)) 4 (Pile 3 0) (Fin 0) PosInf
          = Done r)
  ∧ (∀ r, max_value (G := pile_game (Pile 3 0)) 4 (Pile 3 0) (Fin 0) PosInf
          = Done r
          ↔ max_run (G := pile_game (Pile 3 0)) (min_value 3) (Pile 3 0)
              (actions (Game := pile_game (Pile 3 0)) (Pile 3 0))
              NegInf (Fin 0) PosInf r).
Proof.
  apply (evaluators_follow_the_rules (pile_game (Pile 3 0)) tokens
           (pile_ranked _) 3%nat (Pile 3 0) (Fin 0) PosInf).
  - reflexivity.
  - simpl. lia.
Defined.

(* ===================================================================== *)
(** ** The choice at the root *)
(* ===================================================================== *)

Section RootChoice.
Context {G : Game}.

Lemma search_loop_root_values child (s : State) todo alpha beta b best r :
  search_loop child s todo alpha beta b best = Done r →
  ∃ vs, root_values child s todo alpha beta = Done vs
        ∧ length vs = length todo.
Proof.
  revert alpha b best. induction todo as [|a todo IH]; intros alpha b best.
  - simpl. eauto.
  - simpl. intros H. apply bind_Done in H as (x & -> & H). simpl.
    destruct (num_ltb b x); apply IH in H as (vs & -> & Hlen);
      simpl; eexists; (split; [done|]); simpl; by rewrite Hlen.
Qed.

(** Either no value exceeded [best_score] and the incumbent stays, or the
    move returned sits at the first position whose value is the largest. *)
Lemma search_loop_first_max child (s : State) todo :
  ∀ alpha beta b best r vs,
    search_loop child s todo alpha beta b best = Done r →
    root_values child s todo alpha beta = Done vs →
    (r = best ∧ ∀ j w, vs !! j = Some w → (w <= b)%num)
    ∨ (∃ i a v,
         todo !! i = Some a ∧ vs !! i = Some v ∧ r = Some a
         ∧ (b < v)%num
         ∧ (∀ j w, vs !! j = Some w → (w <= v)%num)
         ∧ (∀ j w, (j < i)%nat → vs !! j = Some w → (w < v)%num)).
Proof.
  induction todo as [|a todo IH]; intros alpha beta b best r vs; simpl.
  - intros [= <-] [= <-]. left. split; [done|]. intros j w Hj.
    by rewrite lookup_nil in Hj.
  - intros H Hvs.
    apply bind_Done in H as (x & Hx & H). rewrite Hx in Hvs. simpl in Hvs.
    apply bind_Done in Hvs as (vs' & Hvs' & [= <-]).
    destruct (num_ltb b x) eqn:Hbx.
    + destruct (IH _ _ _ _ _ _ H Hvs')
        as [[-> Hall]|(i & a' & v & Hi & Hv & -> & Hlt & Hall & Hbefore)].
      * right. exists 0%nat, a, x. repeat split; try done.
        -- intros [|j] w Hj; simpl in Hj.
           ++ injection Hj as <-. apply num_le_refl.
           ++ by eapply Hall.
        -- intros j w Hj. lia.
      * right. exists (S i), a', v. repeat split; try done.
        -- by eapply num_lt_le_trans; [|apply num_lt_le].
        -- intros [|j] w Hj; simpl in Hj.
           ++ injection Hj as <-. by apply num_lt_le.
           ++ by eapply Hall.
        -- intros [|j] w Hji Hj; simpl in Hj.
           ++ by injection Hj as <-.
           ++ eapply Hbefore; [|done]. lia.
    + assert (x <= b)%num as Hxb.
      { unfold num_le. unfold num_ltb in Hbx.
        by destruct (num_leb x b). }
      destruct (IH _ _ _ _ _ _ H Hvs')
        as [[-> Hall]|(i & a' & v & Hi & Hv & -> & Hlt & Hall & Hbefore)].
      * left. split; [done|]. intros [|j] w Hj; simpl in Hj.
        -- by injection Hj as <-.
        -- by eapply Hall.
      * right. exists (S i), a', v. repeat split; try done.
        -- intros [|j] w Hj; simpl in Hj.
           ++ injection Hj as <-. apply num_lt_le.
              by eapply num_le_lt_trans.
           ++ by eapply Hall.
        -- intros [|j] w Hji Hj; simpl in Hj.
           ++ injection Hj as <-. by eapply num_le_lt_trans.
           ++ eapply Hbefore; [|done]. lia.
Qed.

End RootChoice.



(** On a pile of three both moves lose, so both evaluate to -1: the first
    one is returned. *)
Example tie_keeps_first :
  root_values (G := pile_game (Pile 3 0)) (min_value 3) (Pile 3 0)
    [1%nat; 2%nat] NegInf PosInf = Done [Fin (-1); Fin (-1)]
  ∧ alpha_beta_search (G := pile_game (Pile 3 0)) 3 (Pile 3 0)
    = Done (Some 1%nat).
Proof. split; reflexivity. Qed.

(* ===================================================================== *)
(** ** The call counter does not reach the result *)
(* ===================================================================== *)

Section CounterErasure.
Context {G : Game}.

Lemma counted_min_value_loop counted pure (s : State) todo :
  (∀ a, a ∈ todo → counts_for counted pure (result s a)) →
  ∀ v alpha beta r n,
    min_value_loop pure s todo v alpha beta = Done r →
    ∃ n', Counted.min_value_loop counted s todo v alpha beta n = Done (r, n').
Proof.
  induction todo as [|a todo IH]; intros Hch v alpha beta r n; simpl.
  - intros [= ->]. eauto.
  - intros H. apply bind_Done in H as (x & Hx & H).
    destruct (Hch a ltac:(left) alpha beta x n Hx) as [n' ->]. simpl.
    destruct (num_leb _ alpha).
    + injection H as ->. eauto.
    + apply IH; [|done]. intros. apply Hch. by right.
Qed.

Lemma counted_max_value_loop counted pure (s : State) todo :
  (∀ a, a ∈ todo → counts_for counted pure (result s a)) →
  ∀ v alpha beta r n,
    max_value_loop pure s todo v alpha beta = Done r →
    ∃ n', Counted.max_value_loop counted s todo v alpha beta n = Done (r, n').
Proof.
  induction todo as [|a todo IH]; intros Hch v alpha beta r n; simpl.
  - intros [= ->]. eauto.
  - intros H. apply bind_Done in H as (x & Hx & H).
    destruct (Hch a ltac:(left) alpha beta x n Hx) as [n' ->]. simpl.
    destruct (num_leb beta _).
    + injection H as ->. eauto.
    + apply IH; [|done]. intros. apply Hch. by right.
Qed.

Lemma counted_evaluators fuel (s : State) :
  counts_for (Counted.min_value fuel) (min_value fuel) s
  ∧ counts_for (Counted.max_value fuel) (max_value fuel) s.
Proof.
  revert s. induction fuel as [|fuel IH]; intros s.
  - split; intros alpha beta x n; simpl; done.
  - split; intros alpha beta x n; simpl; destruct (terminal_test s).
    + intros [= ->]. eauto.
    + apply counted_min_value_loop. intros a _. apply IH.
    + intros [= ->]. eauto.
    + apply counted_max_value_loop. intros a _. apply IH.
Qed.

Lemma counted_search_loop counted pure (s : State) todo :
  (∀ a, a ∈ todo → counts_for counted pure (result s a)) →
  ∀ alpha beta b best r n,
    search_loop pure s todo alpha beta b best = Done r →
    ∃ n', Counted.search_loop counted s todo alpha beta b best n
          = Done (r, n').
Proof.
  induction todo as [|a todo IH]; intros Hch alpha beta b best r n; simpl.
  - intros [= ->]. eauto.
  - intros H. apply bind_Done in H as (x & Hx & H).
    destruct (Hch a ltac:(left) alpha beta x n Hx) as [n' ->]. simpl.
    destruct (num_ltb b x); (apply IH; [|done]);
      intros; apply Hch; by right.
Qed.

Lemma counted_alpha_beta_search fuel (s : State) r n :
  alpha_beta_search fuel s = Done r →
  ∃ n', Counted.alpha_beta_search fuel s n = Done (r, n').
Proof.
  apply counted_search_loop. intros a _. apply counted_evaluators.
Qed.

End CounterErasure.

(** C6: on a finite game the action alpha-beta search returns from a
    non-terminal position depends on the position alone: one and the same
    answer comes back for every value the harness's call counter may have
    when the search starts and for every sufficient recursion budget, and
    two calls in a row on the same position return it twice. *)
Theorem alpha_beta_search_deterministic (G : Game) (rank : State → nat) :
  ranked G rank →
  ∀ s : State,
    terminal_test s = false →
    ∃ r, ∀ fuel call_counter,
      (rank s <= fuel)%nat →
      alpha_beta_search fuel s = Done r
      ∧ (∃ n, Counted.alpha_beta_search fuel s call_counter = Done (r, n))
      ∧ (∃ n, Counted.search_twice fuel s call_counter = Done (r, r, n)).
Proof.
  intros Hrank s Hs.
  destruct (alpha_beta_search_returns rank Hrank (rank s) s Hs (le_n _))
    as [r Hr].
  exists r. intros fuel n Hle.
  assert (alpha_beta_search fuel s = Done r) as Hfuel
    by by eapply alpha_beta_search_fuel_mono.
  split; [done|]. split.
  - by apply counted_alpha_beta_search.
  - unfold Counted.search_twice.
    destruct (counted_alpha_beta_search fuel s r n Hfuel) as [n1 ->]. simpl.
    destruct (counted_alpha_beta_search fuel s r n1 Hfuel) as [n2 ->]. simpl.
    eauto.
Qed.

Lemma alpha_beta_search_deterministic_witness :
  ∃ r, ∀ fuel call_counter,
    (tokens (Pile 4 0) <= fuel)%nat →
    alpha_beta_search (G := pile_game (Pile 4 0)) fuel (Pile 4 0) = Done r
    ∧ (∃ n, Counted.alpha_beta_search (G := pile_game (Pile 4 0)) fuel
              (Pile 4 0) call_counter = Done (r, n))
    ∧ (∃ n, Counted.search_twice (G := pile_game (Pile 4 0)) fuel
              (Pile 4 0) call_counter = Done (r, r, n)).
Proof.
  apply (alpha_beta_search_deterministic (pile_game (Pile 4 0)) tokens
           (pile_ranked _) (Pile 4 0)).
  reflexivity.
Defined.

Example counted_search_on_a_pile_of_six :
  Counted.alpha_beta_search (G := pile_game (Pile 6 0)) 6 (Pile 6 0) 0
  = Done (Some 1%nat, 27%nat)
  ∧ Counted.alpha_beta_search (G := pile_game (Pile 6 0)) 9 (Pile 6 0) 27
    = Done (Some 1%nat, 54%nat).
Proof. split; reflexivity. Qed.

(* ===================================================================== *)
(** ** Rollouts *)
(* ===================================================================== *)

Section Rollouts.
Context {G : Game}.
Variable tape : nat → nat.

Lemma choice_Done {A : Type} (xs : list A) drawn x drawn' :
  choice tape xs drawn = Done (x, drawn') → x ∈ xs ∧ drawn' = S drawn.
Proof.
  unfold choice. destruct (xs !! _) as [y|] eqn:Hy; [|done].
  intros [= <- <-]. split; [|done]. by eapply list_elem_of_lookup_2.
Qed.

Lemma choice_returns {A : Type} (xs : list A) drawn :
  xs ≠ [] → ∃ x, choice tape xs drawn = Done (x, S drawn) ∧ x ∈ xs.
Proof.
  intros Hxs. unfold choice.
  destruct (lookup_lt_is_Some_2 xs (tape drawn mod length xs)%nat)
    as [x Hx].
  { apply Nat.mod_upper_bound. by destruct xs. }
  rewrite Hx. exists x. split; [done|]. by eapply list_elem_of_lookup_2.
Qed.

Section Finite.
Variable rank : State → nat.
Hypothesis Hrank : ranked G rank.
Hypothesis Hterm : terminal_iff_no_actions G.

Lemma playout_returns fuel :
  ∀ (s : State) drawn,
    (rank s < fuel)%nat →
    ∃ t drawn', playout tape fuel s drawn = Done (t, drawn')
                ∧ terminal_test t = true.
Proof.
  induction fuel as [|fuel IH]; intros s drawn Hlt; [lia|].
  simpl. destruct (terminal_test s) eqn:Hs; [eauto|].
  destruct (choice_returns (actions s) drawn) as (a & -> & Ha).
  { by apply non_terminal_has_actions. }
  simpl. apply IH. specialize (Hrank s a Hs Ha). lia.
Qed.

Lemma simulate_returns fuel (s : State) drawn :
  (rank s < fuel)%nat →
  ∃ t drawn',
    playout tape fuel s drawn = Done (t, drawn')
    ∧ terminal_test t = true
    ∧ simulate tape fuel s drawn
      = Done (if num_ltb (utility t (parity s)) (Fin 0) then -1 else 1,
              drawn').
Proof.
  intros Hlt. destruct (playout_returns fuel s drawn Hlt) as (t & d & Ht & ?).
  exists t, d. unfold simulate. by rewrite Ht.
Qed.

End Finite.
End Rollouts.

(** C10: on a finite game every rollout ends in a terminal position, and
    [simulate] scores it for the player who was to move when the rollout
    began: -1 exactly when that player's utility there is strictly
    negative and +1 otherwise, so a utility of exactly 0, a draw, scores
    +1 as a win does. *)
Theorem simulate_scores_draw_as_win (G : Game) (rank : State → nat)
    (tape : nat → nat) :
  ranked G rank → terminal_iff_no_actions G →
  ∀ fuel (s : State) drawn,
    (rank s < fuel)%nat →
    ∃ t drawn' r,
      playout tape fuel s drawn = Done (t, drawn')
      ∧ terminal_test t = true
      ∧ simulate tape fuel s drawn = Done (r, drawn')
      ∧ (utility t (parity s) = Fin 0 → r = 1)
      ∧ (r = -1 ↔ (utility t (parity s) < Fin 0)%num)
      ∧ (r = 1 ↔ (Fin 0 <= utility t (parity s))%num).
Proof.
  intros Hrank Hterm fuel s drawn Hlt.
  destruct (simulate_returns tape rank Hrank Hterm fuel s drawn Hlt)
    as (t & d & Ht & Hend & Hsim).
  exists t, d, (if num_ltb (utility t (parity s)) (Fin 0) then -1 else 1).
  do 3 (split; [done|]).
  unfold num_lt, num_le, num_ltb.
  destruct (num_leb (Fin 0) (utility t (parity s))) eqn:Hle; simpl.
  - split; [done|]. split; split; done.
  - split; [intros Hu; by rewrite Hu in Hle|]. split; split; done.
Qed.

Lemma simulate_scores_draw_as_win_witness :
  ∃ t drawn' r,
    playout (G := draw_game) (λ _, 0%nat) 2 false 0 = Done (t, drawn')
    ∧ terminal_test (Game := draw_game) t = true
    ∧ simulate (G := draw_game) (λ _, 0%nat) 2 false 0 = Done (r, drawn')
    ∧ (utility (Game := draw_game) t 0 = Fin 0 → r = 1)
    ∧ (r = -1 ↔ (utility (Game := draw_game) t 0 < Fin 0)%num)
    ∧ (r = 1 ↔ (Fin 0 <= utility (Game := draw_game) t 0)%num).
Proof.
  apply (simulate_scores_draw_as_win draw_game
           (λ s : bool, if s then 0%nat else 1%nat) (λ _, 0%nat)
           draw_ranked draw_terminal_iff 2%nat false 0%nat).
  simpl. lia.
Defined.

(* ===================================================================== *)
(** ** Tallies and the book *)
(* ===================================================================== *)

Section Tallies.
Context {G : Game}.

Lemma tally_add_keys (c : tally) a r a' :
  a' ∈ (tally_add c a r).*1 ↔ a' = a ∨ a' ∈ c.*1.
Proof.
  induction c as [|[a0 n] c IH]; simpl.
  - rewrite list_elem_of_singleton. split; [by left|].
    intros [?|H]; [done|]. by apply elem_of_nil in H.
  - destruct (decide (a = a0)) as [->|Hne]; simpl.
    + rewrite elem_of_cons. tauto.
    + rewrite !elem_of_cons, IH. tauto.
Qed.

Lemma tally_add_nonempty (c : tally) a r : tally_add c a r ≠ [].
Proof. destruct c as [|[a0 n] c]; simpl; [done|]. by destruct (decide _). Qed.

Lemma tally_get_add (c : tally) a r :
  tally_get (tally_add c a r) a = tally_get c a + r.
Proof.
  induction c as [|[a0 n] c IH]; simpl.
  - by rewrite decide_True.
  - destruct (decide (a = a0)) as [->|Hne]; simpl.
    + by rewrite decide_True.
    + by rewrite decide_False.
Qed.

Lemma max_from_elem (c : tally) best n :
  max_from best n c ∈ best :: c.*1.
Proof.
  revert best n. induction c as [|[a0 n0] c IH]; intros best n; simpl.
  - left.
  - destruct (n <? n0).
    + right. apply IH.
    + specialize (IH best n). apply elem_of_cons in IH as [->|?].
      * left.
      * right. by right.
Qed.

Lemma max_by_get_elem (c : tally) a : max_by_get c = Some a → a ∈ c.*1.
Proof.
  destruct c as [|[a0 n0] c]; simpl; [done|].
  intros [= <-]. apply max_from_elem.
Qed.

Lemma max_by_get_is_Some (c : tally) : c ≠ [] → is_Some (max_by_get c).
Proof. destruct c as [|[a0 n0] c]; [done|]. simpl. eauto. Qed.

Lemma book_get_add (book : gmap Key tally) k a r :
  book_get (book_add book k a r) k a = book_get book k a + r.
Proof.
  unfold book_get, book_add. rewrite lookup_insert_eq. simpl.
  apply tally_get_add.
Qed.

Lemma book_add_lookup (book : gmap Key tally) k a r k' :
  book_add book k a r !! k'
  = if decide (k = k') then Some (tally_add (default [] (book !! k)) a r)
    else book !! k'.
Proof. unfold book_add. apply lookup_insert. Qed.

End Tallies.

(* ===================================================================== *)
(** ** What an episode does to the book *)
(* ===================================================================== *)

Section Episodes.
Context {G : Game}.
Variable tape : nat → nat.

(** One call of [build_tree]: entries stay, tallies stay non-empty, and
    every action in a tally was either there before or is a legal action
    of a position the call recorded under that key. *)
Lemma build_tree_book fuel depth :
  ∀ (state : State) book drawn r book' drawn',
    build_tree tape fuel state book depth drawn = Done (r, book', drawn') →
    (∀ k, is_Some (book !! k) → is_Some (book' !! k))
    ∧ (map_Forall (λ _ c, c ≠ []) book → map_Forall (λ _ c, c ≠ []) book')
    ∧ (∀ k c' a, book' !! k = Some c' → a ∈ c'.*1 →
         (∃ c, book !! k = Some c ∧ a ∈ c.*1)
         ∨ (∃ s, recorded tape depth state drawn s
                 ∧ hashable s = k ∧ a ∈ actions s))
    ∧ (depth ≠ 0%nat → terminal_test state = false →
       is_Some (book' !! hashable state)).
Proof.
  induction depth as [|depth IH]; intros state book drawn r book' drawn' H.
  - simpl in H. apply bind_Done in H as ([r0 d0] & _ & [= <- <- <-]).
    repeat split; try done. intros k c' a Hk Ha. left. eauto.
  - simpl in H. destruct (terminal_test state) eqn:Hs.
    { apply bind_Done in H as ([r0 d0] & _ & [= <- <- <-]).
      repeat split; try done. intros k c' a Hk Ha. left. eauto. }
    apply bind_Done in H as ([a0 d1] & Hchoice & H).
    apply bind_Done in H as ([[reward book1] d2] & Hrec & [= <- <- <-]).
    destruct (IH _ _ _ _ _ _ Hrec) as (Hdom & Hne & Hkeys & _).
    apply choice_Done in Hchoice as Ha0. destruct Ha0 as [Ha0 _].
    repeat split.
    + intros k Hk. rewrite book_add_lookup.
      destruct (decide _); [eauto|by apply Hdom].
    + intros Hbook. unfold book_add. apply map_Forall_insert_2.
      * apply tally_add_nonempty.
      * by apply Hne.
    + intros k c' a. rewrite book_add_lookup.
      destruct (decide (hashable state = k)) as [Hk|Hk].
      * intros [= <-] Ha. apply tally_add_keys in Ha as [->|Ha].
        { right. exists state. split; [by constructor|done]. }
        destruct (book1 !! hashable state) as [c1|] eqn:Hc1;
          [|by apply elem_of_nil in Ha].
        rewrite <- Hk.
        destruct (Hkeys _ _ _ Hc1 Ha) as [?|(s & Hs' & ? & ?)]; [by left|].
        right. exists s. split; [|done]. by eapply recorded_below.
      * intros Hc' Ha.
        destruct (Hkeys _ _ _ Hc' Ha) as [?|(s & Hs' & ? & ?)]; [by left|].
        right. exists s. split; [|done]. by eapply recorded_below.
    + intros _ _. rewrite book_add_lookup, decide_True by done. eauto.
Qed.

Lemma rounds_S fuel n book drawn :
  rounds tape fuel (S n) book drawn
  = '(_, book, drawn) ← build_tree tape fuel GameState book 2 drawn;
    rounds tape fuel n book drawn.
Proof. done. Qed.

(** The loop of [build_table], taken apart at its last round. *)
Lemma rounds_last fuel n :
  ∀ book drawn book' drawn',
    rounds tape fuel (S n) book drawn = Done (book', drawn')
    ↔ ∃ book1 drawn1 r,
        rounds tape fuel n book drawn = Done (book1, drawn1)
        ∧ build_tree tape fuel GameState book1 2 drawn1
          = Done (r, book', drawn').
Proof.
  induction n as [|n IH]; intros book drawn book' drawn'.
  - rewrite rounds_S. split.
    + intros H. apply bind_Done in H as ([[r b] d] & Hb & [= <- <-]).
      exists book, drawn, r. done.
    + intros (b1 & d1 & r & [= <- <-] & Hb).
      apply bind_Done. exists (r, book', drawn'). done.
  - rewrite rounds_S. split.
    + intros H. apply bind_Done in H as ([[r b] d] & Hb & H).
      apply IH in H as (b1 & d1 & r1 & Hn & Hlast).
      exists b1, d1, r1. split; [|done].
      rewrite rounds_S. apply bind_Done. exists (r, b, d). done.
    + intros (b1 & d1 & r1 & Hn & Hlast).
      rewrite rounds_S in Hn.
      apply bind_Done in Hn as ([[r b] d] & Hb & Hn).
      apply bind_Done. exists (r, b, d). split; [done|].
      apply IH. exists b1, d1, r1. done.
Qed.

(** After [n] rounds from the empty book. *)
Lemma rounds_book fuel n :
  ∀ book drawn,
    rounds tape fuel n ∅ 0%nat = Done (book, drawn) →
    map_Forall (λ _ c, c ≠ []) book
    ∧ (∀ k c a, book !! k = Some c → a ∈ c.*1 →
         ∃ i book_i drawn_i s,
           (i < n)%nat
           ∧ rounds tape fuel i ∅ 0%nat = Done (book_i, drawn_i)
           ∧ recorded tape 2 GameState drawn_i s
           ∧ hashable s = k ∧ a ∈ actions s)
    ∧ ((0 < n)%nat → terminal_test GameState = false →
       is_Some (book !! hashable GameState)).
Proof.
  induction n as [|n IH]; intros book drawn H.
  - simpl in H. injection H as <- <-. repeat split.
    + apply map_Forall_empty.
    + intros k c a Hk. by rewrite lookup_empty in Hk.
    + lia.
  - apply rounds_last in H as (b1 & d1 & r & Hn & Hlast).
    destruct (IH _ _ Hn) as (Hne & Hkeys & Hroot).
    destruct (build_tree_book _ _ _ _ _ _ _ _ Hlast)
      as (Hdom' & Hne' & Hkeys' & Hroot').
    repeat split.
    + by apply Hne'.
    + intros k c a Hk Ha.
      destruct (Hkeys' _ _ _ Hk Ha) as [(c1 & Hc1 & Ha1)|(s & Hs & ? & ?)].
      * destruct (Hkeys _ _ _ Hc1 Ha1) as (i & bi & di & s & ? & ?).
        exists i, bi, di, s. split; [lia|done].
      * exists n, b1, d1, s. split; [lia|done].
    + intros _ Hs. by apply Hroot'.
Qed.

Section Finite.
Variable rank : State → nat.
Hypothesis Hrank : ranked G rank.
Hypothesis Hterm : terminal_iff_no_actions G.

Lemma build_tree_returns fuel depth :
  ∀ (state : State) book drawn,
    (rank state < fuel)%nat →
    ∃ r book' drawn',
      build_tree tape fuel state book depth drawn = Done (r, book', drawn').
Proof.
  induction depth as [|depth IH]; intros state book drawn Hlt; simpl.
  - destruct (simulate_returns tape rank Hrank Hterm fuel state drawn Hlt)
      as (t & d & _ & _ & ->). simpl. eauto.
  - destruct (terminal_test state) eqn:Hs.
    + destruct (simulate_returns tape rank Hrank Hterm fuel state drawn Hlt)
        as (t & d & _ & _ & ->). simpl. eauto.
    + destruct (choice_returns tape (actions state) drawn) as (a & -> & Ha).
      { by apply non_terminal_has_actions. }
      simpl.
      destruct (IH (result state a) book (S drawn)) as (r & b & d & ->).
      { specialize (Hrank state a Hs Ha). lia. }
      simpl. eauto.
Qed.

Lemma rounds_returns fuel n :
  (rank GameState < fuel)%nat →
  ∀ book drawn, ∃ book' drawn',
    rounds tape fuel n book drawn = Done (book', drawn').
Proof.
  intros Hlt. induction n as [|n IH]; intros book drawn.
  - simpl. eauto.
  - rewrite rounds_S.
    destruct (build_tree_returns fuel 2 GameState book drawn Hlt)
      as (r & b & d & ->). apply IH.
Qed.

End Finite.

Lemma collapse_Done (book : gmap Key tally) :
  map_Forall (λ _ c, c ≠ []) book →
  collapse book = Done (omap max_by_get book).
Proof.
  intros Hne. unfold collapse. rewrite decide_True; [done|].
  intros k c Hk. apply max_by_get_is_Some. by eapply Hne.
Qed.

Lemma build_table_zero fuel : build_table tape fuel 0 = Done ∅.
Proof.
  unfold build_table. simpl. rewrite collapse_Done.
  - by rewrite omap_empty.
  - apply map_Forall_empty.
Qed.

End Episodes.

(** C7: on a finite game whose terminal positions are those without legal
    action, for every sequence of random draws, [build_table(0)] returns
    the empty mapping, and for [num_rounds > 0] from a non-terminal initial
    position [build_table] returns a non-empty mapping in which every key
    is the hashable of a position at which one of the episodes recorded an
    action and the value under it is a legal action of that position. *)
Theorem build_table_entries (G : Game) (rank : State → nat)
    (tape : nat → nat) :
  ranked G rank → terminal_iff_no_actions G →
  ∀ fuel,
    (rank GameState < fuel)%nat →
    build_table tape fuel 0 = Done ∅
    ∧ ∀ num_rounds,
        0 < num_rounds → terminal_test GameState = false →
        ∃ table,
          build_table tape fuel num_rounds = Done table
          ∧ table ≠ ∅
          ∧ ∀ k v, table !! k = Some v →
              ∃ i book drawn s,
                (i < Z.to_nat num_rounds)%nat
                ∧ rounds tape fuel i ∅ 0%nat = Done (book, drawn)
                ∧ recorded tape 2 GameState drawn s
                ∧ hashable s = k ∧ v ∈ actions s.
Proof.
  intros Hrank Hterm fuel Hfuel. split; [apply build_table_zero|].
  intros num_rounds Hpos Hroot. unfold build_table.
  destruct (rounds_returns tape rank Hrank Hterm fuel (Z.to_nat num_rounds)
              Hfuel ∅ 0%nat) as (book & drawn & Hrounds).
  rewrite Hrounds. simpl.
  destruct (rounds_book tape fuel _ _ _ Hrounds) as (Hne & Hkeys & Hinit).
  rewrite (collapse_Done _ Hne). eexists. split; [done|]. split.
  - destruct Hinit as [c Hc]; [lia|done|].
    destruct (max_by_get_is_Some c) as [v Hv]; [by eapply Hne|].
    intros Hempty.
    assert (omap max_by_get book !! hashable GameState = Some v) as Hlook.
    { by rewrite lookup_omap, Hc. }
    by rewrite Hempty, lookup_empty in Hlook.
  - intros k v Hk. rewrite lookup_omap in Hk.
    destruct (book !! k) as [c|] eqn:Hc; [|done]. simpl in Hk.
    eapply Hkeys; [done|]. by apply max_by_get_elem.
Qed.

Lemma build_table_entries_witness :
  build_table (G := pile_game (Pile 3 0)) (λ n, n) 4 0 = Done ∅
  ∧ ∀ num_rounds,
      0 < num_rounds →
      terminal_test (Game := pile_game (Pile 3 0)) (Pile 3 0) = false →
      ∃ table,
        build_table (G := pile_game (Pile 3 0)) (λ n, n) 4 num_rounds
        = Done table
        ∧ table ≠ ∅
        ∧ ∀ k v, table !! k = Some v →
            ∃ i book drawn s,
              (i < Z.to_nat num_rounds)%nat
              ∧ rounds (G := pile_game (Pile 3 0)) (λ n, n) 4 i ∅ 0%nat
                = Done (book, drawn)
              ∧ recorded (G := pile_game (Pile 3 0)) (λ n, n) 2 (Pile 3 0)
                  drawn s
              ∧ hashable (Game := pile_game (Pile 3 0)) s = k
              ∧ v ∈ actions (Game := pile_game (Pile 3 0)) s.
Proof.
  apply (build_table_entries (pile_game (Pile 3 0)) tokens (λ n, n)
           (pile_ranked _) (pile_terminal_iff _) 4%nat).
  simpl. lia.
Defined.

(** Three rounds on a pile of three, drawing 0, 1, 2, ...: the book
    recommends taking one token at the start and two from a pile of two. *)
Example build_table_three_rounds :
  build_table (G := pile_game (Pile 3 0)) (λ n, n) 4 3
  = Done {[ (3%nat, 0) := 1%nat; (2%nat, 1) := 2%nat ]}.
Proof. vm_compute. reflexivity. Qed.

(* ===================================================================== *)
(** ** Rewards on the way up *)
(* ===================================================================== *)

Section Rewards.
Context {G : Game}.
Variable tape : nat → nat.

Lemma build_tree_leaf fuel (state : State) book depth drawn t drawn' :
  depth = 0%nat ∨ terminal_test state = true →
  playout tape fuel state drawn = Done (t, drawn') →
  build_tree tape fuel state book depth drawn
  = Done (- (if num_ltb (utility t (parity state)) (Fin 0) then -1 else 1),
          book, drawn').
Proof.
  intros Hleaf Ht.
  assert (simulate tape fuel state drawn
          = Done (if num_ltb (utility t (parity state)) (Fin 0)
                  then -1 else 1, drawn')) as Hsim.
  { unfold simulate. by rewrite Ht. }
  destruct depth as [|depth]; simpl.
  - by rewrite Hsim.
  - destruct Hleaf as [? | ->]; [done|]. by rewrite Hsim.
Qed.

Lemma build_tree_step fuel (state : State) book depth drawn a drawn1
    reward book1 drawn' :
  terminal_test state = false →
  choice tape (actions state) drawn = Done (a, drawn1) →
  build_tree tape fuel (result state a) book depth drawn1
  = Done (reward, book1, drawn') →
  build_tree tape fuel state book (S depth) drawn
  = Done (- reward, book_add book1 (hashable state) a reward, drawn').
Proof.
  intros Hs Hchoice Hrec. simpl. rewrite Hs, Hchoice. simpl.
  by rewrite Hrec.
Qed.

End Rewards.

(** On a pile of two with player 1 to move and one ply of depth left, the
    draw 0 takes one token and the rollout starts on a pile of one with
    player 0 to move.  Player 0 takes the last token and wins.  The pair
    recorded, (pile of two, take one), goes from 0 to -1. *)
Example rollout_won_by_its_starter :
  let G := pile_game (Pile 3 0) in
  let tape := λ _ : nat, 0%nat in
  choice tape (actions (Pile 2 1)) 0 = Done (1%nat, 1%nat)
  ∧ playout tape 3 (Pile 1 0) 1 = Done (Pile 0 1, 2%nat)
  ∧ utility (Pile 0 1) (parity (Pile 1 0)) = Fin 1
  ∧ build_tree tape 3 (Pile 2 1) ∅ 1 0
    = Done (1, {[ (2%nat, 1) := [(1%nat, -1)] ]}, 2%nat)
  ∧ book_get {[ (2%nat, 1) := [(1%nat, -1)] ]} (2%nat, 1) 1%nat = -1.
Proof. repeat split. Qed.

(** Counterexample to C8 as stated: the pair recorded on the way into a
    rollout that its starting player wins gains -1, not +1. *)
Lemma rollout_start_scores_positive_fails :
  ¬ rollout_start_scores_positive (G := pile_game (Pile 3 0)) (λ _, 0%nat).
Proof.
  intros H.
  destruct (H 3%nat (Pile 2 1) ∅ 0%nat 0%nat 1%nat 1%nat (Pile 0 1) 2%nat
              1 {[ (2%nat, 1) := [(1%nat, -1)] ]} 2%nat) as [Hwin _];
    try reflexivity.
  - by left.
  - specialize (Hwin eq_refl). vm_compute in Hwin. discriminate Hwin.
Qed.

(** C8, amended: the reward negates at every level, and its sign follows
    the point of view fixed when the rollout starts.  A call of
    [build_tree] that records the action [a] at [state] adds to the tally
    of that pair the reward the call on the child returned and returns its
    negation.  When the rollout starts at the child, the pair gains -1 if
    the player to move at the start of the rollout ends with a utility
    that is not negative (a win, or a draw) and +1 if that player strictly
    loses; the action was the other player's.  One more ply up the signs
    are the opposite ones. *)
Theorem reward_negates_each_ply (G : Game) (tape : nat → nat)
    fuel (state : State) book depth drawn a drawn1 :
  terminal_test state = false →
  choice tape (actions state) drawn = Done (a, drawn1) →
  (∀ reward book1 drawn',
     build_tree tape fuel (result state a) book depth drawn1
     = Done (reward, book1, drawn') →
     build_tree tape fuel state book (S depth) drawn
     = Done (- reward, book_add book1 (hashable state) a reward, drawn')
     ∧ book_get (book_add book1 (hashable state) a reward)
         (hashable state) a
       = book_get book1 (hashable state) a + reward)
  ∧ (∀ t drawn2,
       depth = 0%nat ∨ terminal_test (result state a) = true →
       playout tape fuel (result state a) drawn1 = Done (t, drawn2) →
       let score :=
         if num_ltb (utility t (parity (result state a))) (Fin 0)
         then -1 else 1 in
       build_tree tape fuel state book (S depth) drawn
       = Done (score, book_add book (hashable state) a (- score), drawn2)
       ∧ book_get (book_add book (hashable state) a (- score))
           (hashable state) a
         = book_get book (hashable state) a - score)
  ∧ (∀ depth' a1 drawn2 t drawn3,
       depth = S depth' →
       terminal_test (result state a) = false →
       choice tape (actions (result state a)) drawn1 = Done (a1, drawn2) →
       depth' = 0%nat
       ∨ terminal_test (result (result state a) a1) = true →
       playout tape fuel (result (result state a) a1) drawn2
       = Done (t, drawn3) →
       let score :=
         if num_ltb (utility t (parity (result (result state a) a1)))
              (Fin 0)
         then -1 else 1 in
       let book1 := book_add book (hashable (result state a)) a1 (- score) in
       build_tree tape fuel state book (S depth) drawn
       = Done (- score, book_add book1 (hashable state) a score, drawn3)
       ∧ book_get (book_add book1 (hashable state) a score)
           (hashable state) a
         = book_get book1 (hashable state) a + score).
Proof.
  intros Hs Hchoice. split; [|split].
  - intros reward book1 drawn' Hrec. split.
    + by apply build_tree_step with drawn1.
    + apply book_get_add.
  - intros t drawn2 Hleaf Ht score. split.
    + rewrite <- (Z.opp_involutive score) at 1.
      apply build_tree_step with drawn1; [done..|].
      by apply build_tree_leaf.
    + rewrite book_get_add. lia.
  - intros depth' a1 drawn2 t drawn3 -> Hs1 Hchoice1 Hleaf Ht score book1.
    split.
    + apply build_tree_step with drawn1; [done..|].
      rewrite <- (Z.opp_involutive score) at 1.
      apply build_tree_step with drawn2; [done..|].
      by apply build_tree_leaf.
    + apply book_get_add.
Qed.

Lemma reward_negates_each_ply_witness :
  build_tree (G := pile_game (Pile 3 0)) (λ _, 0%nat) 3 (Pile 2 1) ∅ 1 0
  = Done (1,
          book_add (G := pile_game (Pile 3 0)) ∅ (2%nat, 1) 1%nat (- 1),
          2%nat)
  ∧ book_get (G := pile_game (Pile 3 0))
      (book_add (G := pile_game (Pile 3 0)) ∅ (2%nat, 1) 1%nat (- 1))
      (2%nat, 1) 1%nat
    = book_get (G := pile_game (Pile 3 0)) ∅ (2%nat, 1) 1%nat - 1.
Proof.
  destruct (reward_negates_each_ply (pile_game (Pile 3 0)) (λ _, 0%nat)
              3%nat (Pile 2 1) ∅ 0%nat 0%nat 1%nat 1%nat)
    as (_ & Hleaf & _).
  - reflexivity.
  - reflexivity.
  - apply (Hleaf (Pile 0 1) 2%nat).
    + by left.
    + reflexivity.
Defined.

(** A whole episode on a pile of three, always drawing 0: both players
    take one token, the rollout starts on a pile of one with player 0 to
    move, and player 0 wins it.  The move of player 1 gains -1 and the
    move of player 0 two plies above the rollout gains +1. *)
Example episode_on_a_pile_of_three :
  build_tree (G := pile_game (Pile 3 0)) (λ _, 0%nat) 3 (Pile 3 0) ∅ 2 0
  = Done (-1,
          {[ (3%nat, 0) := [(1%nat, 1)]; (2%nat, 1) := [(1%nat, -1)] ]},
          3%nat).
Proof. vm_compute. reflexivity. Qed.

(* ===================================================================== *)
(** ** A drawn rollout *)
(* ===================================================================== *)

(** The rollout from the start of the drawn game ends with utility 0 for
    the player who began it and is scored +1; the move into it gains -1. *)
Example drawn_rollout_scores_as_win :
  playout (G := draw_game) (λ _, 0%nat) 2 false 0 = Done (true, 1%nat)
  ∧ utility (Game := draw_game) true 0 = Fin 0
  ∧ simulate (G := draw_game) (λ _, 0%nat) 2 false 0 = Done (1, 1%nat)
  ∧ build_tree (G := draw_game) (λ _, 0%nat) 2 false ∅ 2 0
    = Done (1, {[ false := [((), -1)] ]}, 1%nat).
Proof. repeat split. Qed.

(* ===================================================================== *)
(** ** Nodes visited *)
(* ===================================================================== *)

Section NodesVisited.
Context {G : Game}.

Lemma counted_plain_loop pick counted pure (s : State) todo :
  (∀ a, a ∈ todo → plain_counts_for counted pure (result s a)) →
  ∀ v r n,
    plain_loop pick pure s todo v = Done r →
    ∃ n', Counted.plain_loop pick counted s todo v n = Done (r, n').
Proof.
  induction todo as [|a todo IH]; intros Hch v r n; simpl.
  - intros [= ->]. eauto.
  - intros H. apply bind_Done in H as (x & Hx & H).
    destruct (Hch a ltac:(left) x n Hx) as [n' ->]. simpl.
    apply IH; [|done]. intros. apply Hch. by right.
Qed.

Lemma counted_plain_evaluators fuel (s : State) :
  plain_counts_for (Counted.plain_min_value fuel) (plain_min_value fuel) s
  ∧ plain_counts_for (Counted.plain_max_value fuel) (plain_max_value fuel) s.
Proof.
  revert s. induction fuel as [|fuel IH]; intros s.
  - split; intros x n; simpl; done.
  - split; intros x n; simpl; destruct (terminal_test s).
    + intros [= ->]. eauto.
    + apply counted_plain_loop. intros a _. apply IH.
    + intros [= ->]. eauto.
    + apply counted_plain_loop. intros a _. apply IH.
Qed.

Lemma counted_plain_minimax_search fuel (s : State) r n :
  plain_minimax_search fuel s = Done r →
  ∃ n', Counted.plain_minimax_search fuel s n = Done (r, n').
Proof.
  unfold plain_minimax_search, Counted.plain_minimax_search.
  generalize (actions s) NegInf (@None Action). intros todo. revert n.
  induction todo as [|a todo IH]; intros n b best; simpl.
  - intros [= ->]. eauto.
  - intros H. apply bind_Done in H as (x & Hx & H).
    destruct (proj1 (counted_plain_evaluators fuel (result s a)) x n Hx)
      as [n' ->]. simpl.
    destruct (num_ltb b x); by apply IH.
Qed.

Lemma plain_loop_counter_grows pick plain (s : State) todo :
  (∀ a n n' x, a ∈ todo →
     plain (result s a) n = Done (x, n') → (n <= n')%nat) →
  ∀ v n n' x,
    Counted.plain_loop pick plain s todo v n = Done (x, n') → (n <= n')%nat.
Proof.
  induction todo as [|a todo IH]; intros Hch v n n' x; simpl.
  - intros [= _ ->]. done.
  - intros H. apply bind_Done in H as ([y n1] & Hy & H).
    apply Hch in Hy; [|left]. apply IH in H.
    + lia.
    + intros. eapply Hch; [by right|done].
Qed.

Lemma min_value_loop_visits_no_more pruned plain (s : State) todo :
  (∀ a, a ∈ todo → visits_no_more pruned plain (result s a)) →
  ∀ pick v w alpha beta n n' x m m' r,
    Counted.plain_loop pick plain s todo v n = Done (x, n') →
    (n <= n')%nat
    ∧ (Counted.min_value_loop pruned s todo w alpha beta m = Done (r, m') →
       (m' + n <= n' + m)%nat).
Proof.
  induction todo as [|a todo IH];
    intros Hch pick v w alpha beta n n' x m m' r; simpl.
  - intros [= _ ->]. split; [done|]. intros [= _ ->]. lia.
  - intros H. apply bind_Done in H as ([y n1] & Hy & H).
    assert (∀ a', a' ∈ todo → visits_no_more pruned plain (result s a'))
      as Hch' by (intros; apply Hch; by right).
    split.
    + destruct (Hch a ltac:(left) alpha beta n n1 y m m' r Hy) as [Hn _].
      destruct (IH Hch' _ _ w alpha beta _ _ _ m m' r H) as [Hn1 _]. lia.
    + intros Hp. apply bind_Done in Hp as ([z m1] & Hz & Hp).
      destruct (Hch a ltac:(left) alpha beta n n1 y m m1 z Hy) as [_ Hstep].
      specialize (Hstep Hz). simpl in Hp.
      destruct (num_leb _ alpha).
      * injection Hp as _ <-.
        destruct (IH Hch' _ _ w alpha beta _ _ _ m m r H) as [Hn1 _]. lia.
      * destruct (IH Hch' _ _ (num_min w z) alpha
                    (num_min beta (num_min w z)) _ _ _ m1 m' r H)
          as [_ Hrest].
        specialize (Hrest Hp). lia.
Qed.

Lemma max_value_loop_visits_no_more pruned plain (s : State) todo :
  (∀ a, a ∈ todo → visits_no_more pruned plain (result s a)) →
  ∀ pick v w alpha beta n n' x m m' r,
    Counted.plain_loop pick plain s todo v n = Done (x, n') →
    (n <= n')%nat
    ∧ (Counted.max_value_loop pruned s todo w alpha beta m = Done (r, m') →
       (m' + n <= n' + m)%nat).
Proof.
  induction todo as [|a todo IH];
    intros Hch pick v w alpha beta n n' x m m' r; simpl.
  - intros [= _ ->]. split; [done|]. intros [= _ ->]. lia.
  - intros H. apply bind_Done in H as ([y n1] & Hy & H).
    assert (∀ a', a' ∈ todo → visits_no_more pruned plain (result s a'))
      as Hch' by (intros; apply Hch; by right).
    split.
    + destruct (Hch a ltac:(left) alpha beta n n1 y m m' r Hy) as [Hn _].
      destruct (IH Hch' _ _ w alpha beta _ _ _ m m' r H) as [Hn1 _]. lia.
    + intros Hp. apply bind_Done in Hp as ([z m1] & Hz & Hp).
      destruct (Hch a ltac:(left) alpha beta n n1 y m m1 z Hy) as [_ Hstep].
      specialize (Hstep Hz). simpl in Hp.
      destruct (num_leb beta _).
      * injection Hp as _ <-.
        destruct (IH Hch' _ _ w alpha beta _ _ _ m m r H) as [Hn1 _]. lia.
      * destruct (IH Hch' _ _ (num_max w z)
                    (num_max alpha (num_max w z)) beta _ _ _ m1 m' r H)
          as [_ Hrest].
        specialize (Hrest Hp). lia.
Qed.

Lemma evaluators_visit_no_more fuel (s : State) :
  visits_no_more (Counted.min_value fuel) (Counted.plain_min_value fuel) s
  ∧ visits_no_more (Counted.max_value fuel) (Counted.plain_max_value fuel) s.
Proof.
  revert s. induction fuel as [|fuel IH]; intros s.
  - split; intros alpha beta n n' x m m' r; simpl; done.
  - split; intros alpha beta n n' x m m' r; simpl;
      destruct (terminal_test s).
    + intros [= _ <-]. split; [lia|]. intros [= _ <-]. lia.
    + intros H.
      destruct (min_value_loop_visits_no_more (Counted.max_value fuel)
                  (Counted.plain_max_value fuel) s (actions s)
                  (λ a _, proj2 (IH _)) _ _ PosInf alpha beta _ _ _
                  (S m) m' r H) as [Hn Hp].
      split; [lia|]. intros Hm. specialize (Hp Hm). lia.
    + intros [= _ <-]. split; [lia|]. intros [= _ <-]. lia.
    + intros H.
      destruct (max_value_loop_visits_no_more (Counted.min_value fuel)
                  (Counted.plain_min_value fuel) s (actions s)
                  (λ a _, proj1 (IH _)) _ _ NegInf alpha beta _ _ _
                  (S m) m' r H) as [Hn Hp].
      split; [lia|]. intros Hm. specialize (Hp Hm). lia.
Qed.

Lemma search_loop_visits_no_more pruned plain (s : State) todo :
  (∀ a, a ∈ todo → visits_no_more pruned plain (result s a)) →
  ∀ b best alpha beta b' best' n n' x m m' r,
    Counted.plain_search_loop plain s todo b best n = Done (x, n') →
    Counted.search_loop pruned s todo alpha beta b' best' m = Done (r, m') →
    (m' + n <= n' + m)%nat.
Proof.
  induction todo as [|a todo IH];
    intros Hch b best alpha beta b' best' n n' x m m' r; simpl.
  - intros [= _ ->] [= _ ->]. lia.
  - intros H Hp.
    apply bind_Done in H as ([y n1] & Hy & H).
    apply bind_Done in Hp as ([z m1] & Hz & Hp).
    destruct (Hch a ltac:(left) alpha beta n n1 y m m1 z Hy) as [_ Hstep].
    specialize (Hstep Hz). simpl in Hp.
    assert (∀ a', a' ∈ todo → visits_no_more pruned plain (result s a'))
      as Hch' by (intros; apply Hch; by right).
    assert (m' + n1 <= n' + m1)%nat; [|lia].
    destruct (num_ltb b y), (num_ltb b' z); by eapply IH.
Qed.

End NodesVisited.

(** X3: pruning costs nothing: on a finite game, from a non-terminal
    position, plain minimax and alpha-beta search return the same action,
    and the counter advances no further under alpha-beta search than under
    plain minimax. *)
Theorem pruning_visits_no_more (G : Game) (rank : State → nat) :
  ranked G rank →
  ∀ fuel (s : State),
    terminal_test s = false → (rank s <= fuel)%nat →
    ∃ r visited_plain visited_pruned,
      Counted.plain_minimax_search fuel s 0 = Done (r, visited_plain)
      ∧ Counted.alpha_beta_search fuel s 0 = Done (r, visited_pruned)
      ∧ (visited_pruned <= visited_plain)%nat.
Proof.
  intros Hrank fuel s Hs Hle.
  destruct (plain_minimax_search_returns rank Hrank fuel s Hs Hle)
    as [r Hplain].
  pose proof (alpha_beta_search_agrees fuel s r Hplain) as Hpruned.
  destruct (counted_plain_minimax_search fuel s r 0 Hplain) as [n' Hn'].
  destruct (counted_alpha_beta_search fuel s r 0 Hpruned) as [m' Hm'].
  exists r, n', m'. split; [done|]. split; [done|].
  pose proof (search_loop_visits_no_more (Counted.min_value fuel)
    (Counted.plain_min_value fuel) s (actions s)
    (λ a _, proj1 (evaluators_visit_no_more fuel _))
    _ _ _ _ _ _ _ _ _ _ _ _ Hn' Hm'). lia.
Qed.

(** On a pile of six, plain minimax makes 32 evaluator calls and alpha-beta
    search 27. *)
Example nodes_on_a_pile_of_six :
  Counted.plain_minimax_search (G := pile_game (Pile 6 0)) 6 (Pile 6 0) 0
  = Done (Some 1%nat, 32%nat)
  ∧ Counted.alpha_beta_search (G := pile_game (Pile 6 0)) 6 (Pile 6 0) 0
    = Done (Some 1%nat, 27%nat).
Proof. split; reflexivity. Qed.

(* ===================================================================== *)
(** * Further properties of the search *)
(* ===================================================================== *)

(** ** What a window leaves of the value *)

Lemma clamp_full_window (x : num) : clamp NegInf PosInf x = x.
Proof. unfold clamp. by rewrite num_min_PosInf_l, num_max_NegInf_l. Qed.

Lemma clamp_eq_cases (alpha beta r m : num) :
  clamp alpha beta r = clamp alpha beta m →
  ((alpha < m)%num → (m < beta)%num → r = m)
  ∧ ((alpha < beta)%num → (m <= alpha)%num → (r <= alpha)%num)
  ∧ ((alpha < beta)%num → (beta <= m)%num → (beta <= r)%num).
Proof. unfold clamp. intros H. repeat split; intros; num_crush. Qed.

(** X1: on a finite game both evaluators return, and what they return is
    tied to the plain minimax value [m] of the position: with the full
    window they return [m] itself; with any window they return [m] when it
    lies strictly inside the window, a value [<= alpha] when [m <= alpha]
    and a value [>= beta] when [m >= beta]. *)
Theorem evaluators_exact_in_window (G : Game) (rank : State → nat) :
  ranked G rank →
  ∀ fuel (s : State) alpha beta,
    (rank s < fuel)%nat →
    (∃ m r,
       plain_min_value fuel s = Done m
       ∧ min_value fuel s NegInf PosInf = Done m
       ∧ min_value fuel s alpha beta = Done r
       ∧ ((alpha < m)%num → (m < beta)%num → r = m)
       ∧ ((alpha < beta)%num → (m <= alpha)%num → (r <= alpha)%num)
       ∧ ((alpha < beta)%num → (beta <= m)%num → (beta <= r)%num))
    ∧ (∃ m r,
         plain_max_value fuel s = Done m
         ∧ max_value fuel s NegInf PosInf = Done m
         ∧ max_value fuel s alpha beta = Done r
         ∧ ((alpha < m)%num → (m < beta)%num → r = m)
         ∧ ((alpha < beta)%num → (m <= alpha)%num → (r <= alpha)%num)
         ∧ ((alpha < beta)%num → (beta <= m)%num → (beta <= r)%num)).
Proof.
  intros Hrank fuel s alpha beta Hlt.
  destruct (plain_evaluators_return rank Hrank fuel s Hlt)
    as [[m Hm] [m' Hm']].
  destruct (evaluators_agree fuel s) as [Hmin Hmax].
  split.
  - destruct (Hmin NegInf PosInf m Hm) as (r0 & Hr0 & Hc0).
    destruct (Hmin alpha beta m Hm) as (r & Hr & Hc).
    rewrite !clamp_full_window in Hc0. subst r0.
    exists m, r. do 3 (split; [done|]). by apply clamp_eq_cases.
  - destruct (Hmax NegInf PosInf m' Hm') as (r0 & Hr0 & Hc0).
    destruct (Hmax alpha beta m' Hm') as (r & Hr & Hc).
    rewrite !clamp_full_window in Hc0. subst r0.
    exists m', r. do 3 (split; [done|]). by apply clamp_eq_cases.
Qed.

Lemma evaluators_exact_in_window_witness :
  (∃ m r,
     plain_min_value (G := pile_game (Pile 4 0)) 5 (Pile 4 0) = Done m
     ∧ min_value (G := pile_game (Pile 4 0)) 5 (Pile 4 0) NegInf PosInf
       = Done m
     ∧ min_value (G := pile_game (Pile 4 0)) 5 (Pile 4 0) (Fin 0) (Fin 1)
       = Done r
     ∧ ((Fin 0 < m)%num → (m < Fin 1)%num → r = m)
     ∧ ((Fin 0 < Fin 1)%num → (m <= Fin 0)%num → (r <= Fin 0)%num)
     ∧ ((Fin 0 < Fin 1)%num → (Fin 1 <= m)%num → (Fin 1 <= r)%num))
  ∧ (∃ m r,
       plain_max_value (G := pile_game (Pile 4 0)) 5 (Pile 4 0) = Done m
       ∧ max_value (G := pile_game (Pile 4 0)) 5 (Pile 4 0) NegInf PosInf
         = Done m
       ∧ max_value (G := pile_game (Pile 4 0)) 5 (Pile 4 0) (Fin 0) (Fin 1)
         = Done r
       ∧ ((Fin 0 < m)%num → (m < Fin 1)%num → r = m)
       ∧ ((Fin 0 < Fin 1)%num → (m <= Fin 0)%num → (r <= Fin 0)%num)
       ∧ ((Fin 0 < Fin 1)%num → (Fin 1 <= m)%num → (Fin 1 <= r)%num)).
Proof.
  apply (evaluators_exact_in_window (pile_game (Pile 4 0)) tokens
           (pile_ranked _) 5%nat (Pile 4 0) (Fin 0) (Fin 1)).
  simpl. lia.
Defined.

(** ** The move returned is a best one *)

Section BestMove.
Context {G : Game}.

Lemma plain_search_loop_first_max child (s : State) todo :
  ∀ b best r,
    plain_search_loop child s todo b best = Done r →
    (r = best
     ∧ ∀ j a' m', todo !! j = Some a' → child (result s a') = Done m' →
         (m' <= b)%num)
    ∨ (∃ i a m,
         todo !! i = Some a ∧ child (result s a) = Done m ∧ r = Some a
         ∧ (b < m)%num
         ∧ (∀ j a' m', todo !! j = Some a' →
              child (result s a') = Done m' → (m' <= m)%num)
         ∧ (∀ j a' m', (j < i)%nat → todo !! j = Some a' →
              child (result s a') = Done m' → (m' < m)%num)).
Proof.
  induction todo as [|a todo IH]; intros b best r; simpl.
  - intros [= <-]. left. split; [done|]. intros j a' m' Hj.
    by rewrite lookup_nil in Hj.
  - intros H. apply bind_Done in H as (x & Hx & H).
    destruct (num_ltb b x) eqn:Hbx.
    + destruct (IH _ _ _ H)
        as [[-> Hall]|(i & a0 & m & Hi & Hm & -> & Hlt & Hall & Hbefore)].
      * right. exists 0%nat, a, x. repeat split; try done.
        -- intros [|j] a' m' Hj Hm'; simpl in Hj.
           ++ injection Hj as <-. rewrite Hx in Hm'. injection Hm' as <-.
              apply num_le_refl.
           ++ by eapply Hall.
        -- intros j a' m' Hj. lia.
      * right. exists (S i), a0, m. repeat split; try done.
        -- by eapply num_lt_le_trans; [|apply num_lt_le].
        -- intros [|j] a' m' Hj Hm'; simpl in Hj.
           ++ injection Hj as <-. rewrite Hx in Hm'. injection Hm' as <-.
              by apply num_lt_le.
           ++ by eapply Hall.
        -- intros [|j] a' m' Hji Hj Hm'; simpl in Hj.
           ++ injection Hj as <-. rewrite Hx in Hm'. by injection Hm' as <-.
           ++ eapply Hbefore; [|done..]. lia.
    + assert (x <= b)%num as Hxb.
      { unfold num_le. unfold num_ltb in Hbx. by destruct (num_leb x b). }
      destruct (IH _ _ _ H)
        as [[-> Hall]|(i & a0 & m & Hi & Hm & -> & Hlt & Hall & Hbefore)].
      * left. split; [done|]. intros [|j] a' m' Hj Hm'; simpl in Hj.
        -- injection Hj as <-. rewrite Hx in Hm'. by injection Hm' as <-.
        -- by eapply Hall.
      * right. exists (S i), a0, m. repeat split; try done.
        -- intros [|j] a' m' Hj Hm'; simpl in Hj.
           ++ injection Hj as <-. rewrite Hx in Hm'. injection Hm' as <-.
              apply num_lt_le. by eapply num_le_lt_trans.
           ++ by eapply Hall.
        -- intros [|j] a' m' Hji Hj Hm'; simpl in Hj.
           ++ injection Hj as <-. rewrite Hx in Hm'. injection Hm' as <-.
              by eapply num_le_lt_trans.
           ++ eapply Hbefore; [|done..]. lia.
Qed.

End BestMove.

(** X2: on a finite game, the action alpha-beta search returns from a
    non-terminal position leads to a position whose plain minimax value is
    the largest among those of all legal actions, and it is the first
    action in the order of [actions()] with that value. *)
Theorem alpha_beta_search_best_move (G : Game) (rank : State → nat) :
  ranked G rank →
  ∀ fuel (s : State) a,
    terminal_test s = false → (rank s <= fuel)%nat →
    alpha_beta_search fuel s = Done (Some a) →
    ∃ i m,
      actions s !! i = Some a
      ∧ plain_min_value fuel (result s a) = Done m
      ∧ (∀ j a' m', actions s !! j = Some a' →
           plain_min_value fuel (result s a') = Done m' → (m' <= m)%num)
      ∧ (∀ j a' m', (j < i)%nat → actions s !! j = Some a' →
           plain_min_value fuel (result s a') = Done m' → (m' < m)%num).
Proof.
  intros Hrank fuel s a Hs Hle Hsearch.
  destruct (plain_minimax_search_returns rank Hrank fuel s Hs Hle)
    as [r Hplain].
  pose proof (alpha_beta_search_agrees fuel s r Hplain) as Hagree.
  rewrite Hsearch in Hagree. injection Hagree as <-.
  destruct (plain_search_loop_first_max _ _ _ _ _ _ Hplain)
    as [[? _]|(i & a0 & m & Hi & Hm & [= <-] & _ & Hall & Hbefore)]; [done|].
  exists i, m. done.
Qed.

Lemma alpha_beta_search_best_move_witness :
  ∃ i m,
    actions (Game := pile_game (Pile 5 0)) (Pile 5 0) !! i = Some 2%nat
    ∧ plain_min_value (G := pile_game (Pile 5 0)) 5
        (result (Game := pile_game (Pile 5 0)) (Pile 5 0) 2%nat) = Done m
    ∧ (∀ j a' m',
         actions (Game := pile_game (Pile 5 0)) (Pile 5 0) !! j = Some a' →
         plain_min_value (G := pile_game (Pile 5 0)) 5
           (result (Game := pile_game (Pile 5 0)) (Pile 5 0) a') = Done m' →
         (m' <= m)%num)
    ∧ (∀ j a' m', (j < i)%nat →
         actions (Game := pile_game (Pile 5 0)) (Pile 5 0) !! j = Some a' →
         plain_min_value (G := pile_game (Pile 5 0)) 5
           (result (Game := pile_game (Pile 5 0)) (Pile 5 0) a') = Done m' →
         (m' < m)%num).
Proof.
  apply (alpha_beta_search_best_move (pile_game (Pile 5 0)) tokens
           (pile_ranked _) 5%nat (Pile 5 0) 2%nat).
  - reflexivity.
  - simpl. lia.
  - reflexivity.
Defined.

Lemma pruning_visits_no_more_witness :
  ∃ r visited_plain visited_pruned,
    Counted.plain_minimax_search (G := pile_game (Pile 6 0)) 6 (Pile 6 0) 0
    = Done (r, visited_plain)
    ∧ Counted.alpha_beta_search (G := pile_game (Pile 6 0)) 6 (Pile 6 0) 0
      = Done (r, visited_pruned)
    ∧ (visited_pruned <= visited_plain)%nat.
Proof.
  apply (pruning_visits_no_more (pile_game (Pile 6 0)) tokens
           (pile_ranked _) 6%nat (Pile 6 0)).
  - reflexivity.
  - simpl. lia.
Defined.

(** ** Where the values come from *)

Section ValueOrigin.
Context {G : Game}.
Hypothesis Hterm : terminal_iff_no_actions G.

Lemma reached_from_result (s : State) a t :
  terminal_test s = false → a ∈ actions s →
  reached (result s a) t → reached s t.
Proof.
  intros Hs Ha. induction 1 as [|t' a' _ IH Ht' Ha'].
  - apply reached_result; [constructor|done..].
  - by apply reached_result.
Qed.

(** [x] is the utility for player 0 of a terminal position the play can end
    in from one of the children of [s]. *)
Lemma min_value_loop_origin child (s : State) todo v alpha beta r :
  terminal_test s = false →
  (∀ a, a ∈ todo → a ∈ actions s) →
  (∀ a al be x, a ∈ todo → child (result s a) al be = Done x →
     ∃ t, reached (result s a) t ∧ terminal_test t = true
          ∧ x = utility t 0) →
  (v = PosInf ∧ todo ≠ [])
  ∨ (∃ t, reached s t ∧ terminal_test t = true ∧ v = utility t 0) →
  min_value_loop child s todo v alpha beta = Done r →
  ∃ t, reached s t ∧ terminal_test t = true ∧ r = utility t 0.
Proof.
  intros Hs. revert v beta.
  induction todo as [|a todo IH]; intros v beta Hsub Hch Hv; simpl.
  - intros [= ->]. by destruct Hv as [[_ ?]|?].
  - intros H. apply bind_Done in H as (x & Hx & H).
    destruct (Hch a alpha beta x ltac:(left) Hx) as (t & Ht & Hend & ->).
    assert (∃ t', reached s t' ∧ terminal_test t' = true
                  ∧ num_min v (utility t 0) = utility t' 0) as Hv'.
    { destruct Hv as [[-> _]|(t0 & ? & ? & ->)].
      - rewrite num_min_PosInf_l. exists t. split; [|done].
        eapply reached_from_result; [done| |done]. apply Hsub. left.
      - unfold num_min. destruct (num_ltb _ _).
        + exists t. split; [|done].
          eapply reached_from_result; [done| |done]. apply Hsub. left.
        + by exists t0. }
    destruct (num_leb _ alpha).
    + injection H as <-. done.
    + eapply IH; [| |by right|done].
      * intros. apply Hsub. by right.
      * intros. eapply Hch; [by right|done].
Qed.

Lemma max_value_loop_origin child (s : State) todo v alpha beta r :
  terminal_test s = false →
  (∀ a, a ∈ todo → a ∈ actions s) →
  (∀ a al be x, a ∈ todo → child (result s a) al be = Done x →
     ∃ t, reached (result s a) t ∧ terminal_test t = true
          ∧ x = utility t 0) →
  (v = NegInf ∧ todo ≠ [])
  ∨ (∃ t, reached s t ∧ terminal_test t = true ∧ v = utility t 0) →
  max_value_loop child s todo v alpha beta = Done r →
  ∃ t, reached s t ∧ terminal_test t = true ∧ r = utility t 0.
Proof.
  intros Hs. revert v alpha.
  induction todo as [|a todo IH]; intros v alpha Hsub Hch Hv; simpl.
  - intros [= ->]. by destruct Hv as [[_ ?]|?].
  - intros H. apply bind_Done in H as (x & Hx & H).
    destruct (Hch a alpha beta x ltac:(left) Hx) as (t & Ht & Hend & ->).
    assert (∃ t', reached s t' ∧ terminal_test t' = true
                  ∧ num_max v (utility t 0) = utility t' 0) as Hv'.
    { destruct Hv as [[-> _]|(t0 & ? & ? & ->)].
      - rewrite num_max_NegInf_l. exists t. split; [|done].
        eapply reached_from_result; [done| |done]. apply Hsub. left.
      - unfold num_max. destruct (num_ltb _ _).
        + exists t. split; [|done].
          eapply reached_from_result; [done| |done]. apply Hsub. left.
        + by exists t0. }
    destruct (num_leb beta _).
    + injection H as <-. done.
    + eapply IH; [| |by right|done].
      * intros. apply Hsub. by right.
      * intros. eapply Hch; [by right|done].
Qed.

Lemma evaluators_origin fuel :
  ∀ (s : State) alpha beta r,
    (min_value fuel s alpha beta = Done r →
     ∃ t, reached s t ∧ terminal_test t = true ∧ r = utility t 0)
    ∧ (max_value fuel s alpha beta = Done r →
       ∃ t, reached s t ∧ terminal_test t = true ∧ r = utility t 0).
Proof.
  induction fuel as [|fuel IH]; intros s alpha beta r; simpl; [done|].
  destruct (terminal_test s) eqn:Hs.
  - split; intros [= <-]; exists s; (split; [constructor|done]).
  - split.
    + apply min_value_loop_origin; [done..| |].
      * intros a al be x _. apply IH.
      * left. split; [done|]. by apply non_terminal_has_actions.
    + apply max_value_loop_origin; [done..| |].
      * intros a al be x _. apply IH.
      * left. split; [done|]. by apply non_terminal_has_actions.
Qed.

End ValueOrigin.

(** X4: on a game whose terminal positions are those without legal action,
    a value returned by [min_value] or [max_value], whatever the window, is
    the utility for player 0 of a terminal position that legal play can
    reach from the position evaluated: pruning never makes up a value. *)
Theorem evaluator_value_is_a_terminal_utility (G : Game) :
  terminal_iff_no_actions G →
  ∀ fuel (s : State) alpha beta r,
    min_value fuel s alpha beta = Done r
    ∨ max_value fuel s alpha beta = Done r →
    ∃ t, reached s t ∧ terminal_test t = true ∧ r = utility t 0.
Proof.
  intros Hterm fuel s alpha beta r.
  destruct (evaluators_origin Hterm fuel s alpha beta r) as [Hmin Hmax].
  intros [H|H]; [by apply Hmin|by apply Hmax].
Qed.

Lemma evaluator_value_is_a_terminal_utility_witness :
  ∃ t,
    reached (G := pile_game (Pile 3 1)) (Pile 3 1) t
    ∧ terminal_test (Game := pile_game (Pile 3 1)) t = true
    ∧ Fin 1 = utility (Game := pile_game (Pile 3 1)) t 0.
Proof.
  apply (evaluator_value_is_a_terminal_utility (pile_game (Pile 3 1))
           (pile_terminal_iff _) 4%nat (Pile 3 1) NegInf PosInf (Fin 1)).
  left. reflexivity.
Defined.

(** ** When no move is returned *)

(** X5: alpha-beta search returns [None] exactly when every value it
    evaluated at the root is -infinity; in particular it returns [None],
    without raising, from a position that has no legal action. *)
Theorem alpha_beta_search_None (G : Game) fuel (s : State) :
  (actions s = [] → alpha_beta_search fuel s = Done None)
  ∧ ∀ r,
      alpha_beta_search fuel s = Done r →
      ∃ vs,
        root_values (min_value fuel) s (actions s) NegInf PosInf = Done vs
        ∧ (r = None ↔ ∀ j v, vs !! j = Some v → v = NegInf).
Proof.
  split.
  - unfold alpha_beta_search. by intros ->.
  - unfold alpha_beta_search. intros r H.
    destruct (search_loop_root_values _ _ _ _ _ _ _ _ H) as (vs & Hvs & _).
    exists vs. split; [done|].
    destruct (search_loop_first_max _ _ _ _ _ _ _ _ _ H Hvs)
      as [[-> Hall]|(i & a & v & _ & Hv & -> & Hlt & _)].
    + split; [|done]. intros _ j v Hj.
      apply num_le_antisym; [by eapply Hall|apply num_NegInf_le].
    + split; [done|]. intros Hall. rewrite (Hall _ _ Hv) in Hlt.
      by destruct v.
Qed.

Lemma alpha_beta_search_None_witness :
  ∃ vs,
    root_values (G := inf_pile_game (Pile 3 0)) (min_value 3) (Pile 3 0)
      (actions (Game := inf_pile_game (Pile 3 0)) (Pile 3 0)) NegInf PosInf
    = Done vs
    ∧ (@None nat = None ↔ ∀ j v, vs !! j = Some v → v = NegInf).
Proof.
  apply (proj2 (alpha_beta_search_None (inf_pile_game (Pile 3 0)) 3%nat
                  (Pile 3 0)) None).
  reflexivity.
Defined.

(* ===================================================================== *)
(** * Further properties of the opening book *)
(* ===================================================================== *)

Section BookFacts.
Context {G : Game}.
Variable tape : nat → nat.

Lemma bind_Raised {A B : Type} (m : outcome A) (f : A → outcome B) e :
  m ≫= f = Raised e ↔ m = Raised e ∨ ∃ a, m = Done a ∧ f a = Raised e.
Proof.
  unfold mbind, outcome_bind. destruct m as [a|e'|]; split.
  - right. eauto.
  - intros [?|(a' & [= ->] & ?)]; done.
  - intros [= ->]. by left.
  - intros [[= ->]|(? & ? & ?)]; done.
  - done.
  - intros [?|(? & ? & ?)]; done.
Qed.

(** *** Rewards are units *)

Lemma tally_get_add_ne (c : tally) a r a' :
  a ≠ a' → tally_get (tally_add c a r) a' = tally_get c a'.
Proof.
  intros Hne. induction c as [|[a0 n] c IH]; simpl.
  - by rewrite decide_False by done.
  - destruct (decide (a = a0)) as [->|Ha]; simpl.
    + by rewrite !decide_False by done.
    + destruct (decide (a' = a0)); [done|]. apply IH.
Qed.

Lemma book_get_add_other (book : gmap Key tally) k a r k' a' :
  ¬ (k = k' ∧ a = a') →
  book_get (book_add book k a r) k' a' = book_get book k' a'.
Proof.
  intros Hne. unfold book_get. rewrite book_add_lookup.
  destruct (decide (k = k')) as [<-|Hk]; [|done]. simpl.
  apply tally_get_add_ne. intros ->. by apply Hne.
Qed.

Lemma book_get_add_any (book : gmap Key tally) k a r k' a' :
  book_get (book_add book k a r) k' a'
  = book_get book k' a' + (if decide (k = k' ∧ a = a') then r else 0).
Proof.
  destruct (decide (k = k' ∧ a = a')) as [[<- <-]|Hne].
  - apply book_get_add.
  - rewrite book_get_add_other by done. lia.
Qed.

Lemma simulate_unit fuel (s : State) drawn r drawn' :
  simulate tape fuel s drawn = Done (r, drawn') → r = 1 ∨ r = -1.
Proof.
  unfold simulate. intros H.
  apply bind_Done in H as ([t d] & _ & [= <- _]).
  destruct (num_ltb _ _); auto.
Qed.

Lemma build_tree_unit fuel depth :
  ∀ (s : State) book drawn r book' drawn',
    build_tree tape fuel s book depth drawn = Done (r, book', drawn') →
    r = 1 ∨ r = -1.
Proof.
  induction depth as [|depth IH]; intros s book drawn r book' drawn' H.
  - simpl in H. apply bind_Done in H as ([r0 d0] & Hsim & [= <- _ _]).
    apply simulate_unit in Hsim. lia.
  - simpl in H. destruct (terminal_test s).
    { apply bind_Done in H as ([r0 d0] & Hsim & [= <- _ _]).
      apply simulate_unit in Hsim. lia. }
    apply bind_Done in H as ([a0 d1] & _ & H).
    apply bind_Done in H as ([[reward book1] d2] & Hrec & [= <- _ _]).
    apply IH in Hrec. lia.
Qed.

(** A call with one ply of depth records at most one pair, with the
    negation of what it returns. *)
Lemma build_tree_one_ply fuel (s : State) book drawn r book' drawn' :
  build_tree tape fuel s book 1 drawn = Done (r, book', drawn') →
  (r = 1 ∨ r = -1)
  ∧ (book' = book ∨ ∃ a, book' = book_add book (hashable s) a (- r)).
Proof.
  intros H. split; [by eapply build_tree_unit|].
  simpl in H. destruct (terminal_test s).
  { apply bind_Done in H as ([r0 d0] & _ & [= _ <- _]). by left. }
  apply bind_Done in H as ([a0 d1] & _ & H).
  apply bind_Done in H as ([[reward book1] d2] & Hrec & [= <- <- _]).
  apply bind_Done in Hrec as ([r0 d0] & _ & [= _ <- _]).
  right. exists a0. by rewrite Z.opp_involutive.
Qed.

(** One episode moves every tally by at most one. *)
Lemma episode_moves_by_one fuel (s : State) book drawn r book' drawn' :
  build_tree tape fuel s book 2 drawn = Done (r, book', drawn') →
  ∀ k a, -1 <= book_get book' k a - book_get book k a <= 1.
Proof.
  intros H k a.
  change (build_tree tape fuel s book 2 drawn)
    with (if terminal_test s then
            '(r, drawn) ← simulate tape fuel s drawn; Done (- r, book, drawn)
          else
            '(action, drawn) ← choice tape (actions s) drawn;
            '(reward, book, drawn) ←
                build_tree tape fuel (result s action) book 1 drawn;
            Done (- reward, book_add book (hashable s) action reward, drawn))
    in H.
  destruct (terminal_test s).
  { apply bind_Done in H as ([r0 d0] & _ & [= _ <- _]). lia. }
  apply bind_Done in H as ([a0 d1] & _ & H).
  apply bind_Done in H as ([[reward book1] d2] & Hrec & [= _ <- _]).
  apply build_tree_one_ply in Hrec as [Hunit [->|[a1 ->]]];
    rewrite !book_get_add_any; repeat case_decide; lia.
Qed.

End BookFacts.

(** X6: after [n] rounds of [build_table]'s loop from the empty book, every
    tally [book[k][a]] lies between [-n] and [n]: each episode returns +1
    or -1 up the recursion and moves any one tally by at most one. *)
Theorem tallies_within_rounds (G : Game) (tape : nat → nat) fuel n
    (book : gmap Key tally) drawn :
  rounds tape fuel n ∅ 0%nat = Done (book, drawn) →
  ∀ k a, - Z.of_nat n <= book_get book k a <= Z.of_nat n.
Proof.
  revert book drawn. induction n as [|n IH]; intros book drawn H k a.
  - simpl in H. injection H as <- _. unfold book_get.
    rewrite lookup_empty. simpl. lia.
  - apply rounds_last in H as (b1 & d1 & r & Hn & Hlast).
    specialize (IH _ _ Hn k a).
    pose proof (episode_moves_by_one tape _ _ _ _ _ _ _ Hlast k a). lia.
Qed.

Lemma tallies_within_rounds_witness :
  - Z.of_nat 3
  <= book_get (G := pile_game (Pile 3 0))
       {[ (3%nat, 0) := [(1%nat, -3)]; (2%nat, 1) := [(2%nat, 3)] ]}
       (3%nat, 0) 1%nat
  <= Z.of_nat 3.
Proof.
  apply (tallies_within_rounds (pile_game (Pile 3 0)) (λ n, n) 4%nat 3%nat
           {[ (3%nat, 0) := [(1%nat, -3)]; (2%nat, 1) := [(2%nat, 3)] ]}
           6%nat).
  vm_compute. reflexivity.
Defined.

(** ** Exceptions *)

Section Exceptions.
Context {G : Game}.
Variable tape : nat → nat.

Lemma choice_Raised {A : Type} (xs : list A) drawn e :
  choice tape xs drawn = Raised e → e = IndexError ∧ xs = [].
Proof.
  unfold choice. destruct (xs !! _) as [x|] eqn:Hx; [done|].
  intros [= <-]. split; [done|].
  destruct xs as [|x xs]; [done|]. exfalso.
  apply lookup_ge_None in Hx.
  pose proof (Nat.mod_upper_bound (tape drawn) (length (x :: xs))
                ltac:(done)). lia.
Qed.

(** "[e] is an [IndexError] and some non-terminal position has no legal
    action." *)
Lemma playout_Raised fuel :
  ∀ (s : State) drawn e,
    playout tape fuel s drawn = Raised e →
    e = IndexError ∧ ∃ s', terminal_test s' = false ∧ actions s' = [].
Proof.
  induction fuel as [|fuel IH]; intros s drawn e; simpl; [done|].
  destruct (terminal_test s) eqn:Hs; [done|].
  intros H. apply bind_Raised in H as [H|([a d] & _ & H)].
  - apply choice_Raised in H as [-> ?]. eauto.
  - by eapply IH.
Qed.

Lemma simulate_Raised fuel (s : State) drawn e :
  simulate tape fuel s drawn = Raised e →
  e = IndexError ∧ ∃ s', terminal_test s' = false ∧ actions s' = [].
Proof.
  unfold simulate. intros H.
  apply bind_Raised in H as [H|([t d] & _ & H)]; [|done].
  by eapply playout_Raised.
Qed.

Lemma build_tree_Raised fuel depth :
  ∀ (s : State) book drawn e,
    build_tree tape fuel s book depth drawn = Raised e →
    e = IndexError ∧ ∃ s', terminal_test s' = false ∧ actions s' = [].
Proof.
  induction depth as [|depth IH]; intros s book drawn e; simpl.
  - intros H. apply bind_Raised in H as [H|([r d] & _ & H)]; [|done].
    by eapply simulate_Raised.
  - destruct (terminal_test s) eqn:Hs.
    { intros H. apply bind_Raised in H as [H|([r d] & _ & H)]; [|done].
      by eapply simulate_Raised. }
    intros H. apply bind_Raised in H as [H|([a d] & _ & H)].
    { apply choice_Raised in H as [-> ?]. eauto. }
    apply bind_Raised in H as [H|([[r b] d'] & _ & H)]; [|done].
    by eapply IH.
Qed.

Lemma rounds_Raised fuel n :
  ∀ (book : gmap Key tally) drawn e,
    rounds tape fuel n book drawn = Raised e →
    e = IndexError
    ∧ ∃ s' : State, terminal_test s' = false ∧ actions s' = [].
Proof.
  induction n as [|n IH]; intros book drawn e; [done|].
  rewrite rounds_S. intros H.
  apply bind_Raised in H as [H|([[r b] d] & _ & H)].
  - by eapply build_tree_Raised.
  - by eapply IH.
Qed.

End Exceptions.

(** X7: the only exception [build_table] can raise by itself is the
    [IndexError] of [random.choice], and only on a game that has a
    non-terminal position without legal action; [max] is never called on
    an empty [Counter]. *)
Theorem build_table_raises_only_IndexError (G : Game) (tape : nat → nat)
    fuel num_rounds e :
  build_table tape fuel num_rounds = Raised e →
  e = IndexError ∧ ∃ s : State, terminal_test s = false ∧ actions s = [].
Proof.
  unfold build_table. intros H.
  apply bind_Raised in H as [H|([book drawn] & Hrounds & H)].
  - by eapply rounds_Raised.
  - apply rounds_book in Hrounds as (Hne & _).
    by rewrite (collapse_Done _ Hne) in H.
Qed.

Lemma build_table_raises_only_IndexError_witness :
  IndexError = IndexError
  ∧ ∃ s : State (Game := stuck_game),
      terminal_test (Game := stuck_game) s = false
      ∧ actions (Game := stuck_game) s = [].
Proof.
  apply (build_table_raises_only_IndexError stuck_game (λ _, 0%nat)
           1%nat 1 IndexError).
  reflexivity.
Defined.

(** ** The recommended action *)

Section Recommendation.
Context {G : Game}.
Variable tape : nat → nat.

Lemma tally_add_NoDup (c : tally) a r :
  NoDup c.*1 → NoDup (tally_add c a r).*1.
Proof.
  induction c as [|[a0 n] c IH]; simpl.
  - intros _. apply NoDup_singleton.
  - intros Hnd. apply NoDup_cons in Hnd as [Hnotin Hnd].
    destruct (decide (a = a0)) as [->|Hne]; simpl.
    + by apply NoDup_cons.
    + apply NoDup_cons. split; [|by apply IH].
      rewrite tally_add_keys. intros [?|?]; [by subst|done].
Qed.

Lemma tally_get_elem (c : tally) a n :
  NoDup c.*1 → (a, n) ∈ c → tally_get c a = n.
Proof.
  induction c as [|[a0 n0] c IH]; simpl.
  - intros _ H. by apply elem_of_nil in H.
  - intros Hnd H. apply NoDup_cons in Hnd as [Hnotin Hnd].
    apply elem_of_cons in H as [[= <- <-]|H].
    + by rewrite decide_True.
    + rewrite decide_False; [by apply IH|].
      intros ->. apply Hnotin.
      apply list_elem_of_fmap. by exists (a0, n).
Qed.

(** [max] walks the tally once, keeping the largest count seen. *)
Lemma max_from_largest (c : tally) best n :
  ∃ n',
    ((max_from best n c, n') = (best, n) ∨ (max_from best n c, n') ∈ c)
    ∧ n <= n'
    ∧ ∀ x nx, (x, nx) ∈ c → nx <= n'.
Proof.
  revert best n. induction c as [|[a0 n0] c IH]; intros best n; simpl.
  - exists n. split; [by left|]. split; [lia|].
    intros x nx H. by apply elem_of_nil in H.
  - destruct (n <? n0) eqn:Hlt.
    + apply Z.ltb_lt in Hlt.
      destruct (IH a0 n0) as (n' & Hin & Hle & Hall).
      exists n'. split; [|split; [lia|]].
      * right. destruct Hin as [->|Hin]; [left|by right].
      * intros x nx Hx. apply elem_of_cons in Hx as [[= -> ->]|Hx];
          [done|by eapply Hall].
    + apply Z.ltb_ge in Hlt.
      destruct (IH best n) as (n' & Hin & Hle & Hall).
      exists n'. split; [|split; [lia|]].
      * destruct Hin as [Hin|Hin]; [by left|right; by right].
      * intros x nx Hx. apply elem_of_cons in Hx as [[= -> ->]|Hx];
          [lia|by eapply Hall].
Qed.

Lemma max_by_get_largest (c : tally) a :
  max_by_get c = Some a →
  ∃ n, (a, n) ∈ c ∧ ∀ x nx, (x, nx) ∈ c → nx <= n.
Proof.
  destruct c as [|[a0 n0] c]; simpl; [done|]. intros [= <-].
  destruct (max_from_largest c a0 n0) as (n' & Hin & Hle & Hall).
  exists n'. split.
  - destruct Hin as [->|Hin]; [left|by right].
  - intros x nx Hx. apply elem_of_cons in Hx as [[= -> ->]|Hx];
      [done|by eapply Hall].
Qed.

Lemma build_tree_NoDup fuel depth :
  ∀ (s : State) book drawn r book' drawn',
    build_tree tape fuel s book depth drawn = Done (r, book', drawn') →
    map_Forall (λ _ c, NoDup c.*1) book →
    map_Forall (λ _ c, NoDup c.*1) book'.
Proof.
  induction depth as [|depth IH]; intros s book drawn r book' drawn' H.
  - simpl in H. by apply bind_Done in H as ([r0 d0] & _ & [= _ <- _]).
  - simpl in H. destruct (terminal_test s).
    { by apply bind_Done in H as ([r0 d0] & _ & [= _ <- _]). }
    apply bind_Done in H as ([a0 d1] & _ & H).
    apply bind_Done in H as ([[reward book1] d2] & Hrec & [= _ <- _]).
    intros Hnd. unfold book_add. apply map_Forall_insert_2.
    + apply tally_add_NoDup.
      destruct (book1 !! hashable s) as [c|] eqn:Hc; simpl.
      * by eapply (IH _ _ _ _ _ _ Hrec Hnd).
      * apply NoDup_nil_2.
    + by eapply IH.
Qed.

Lemma rounds_NoDup fuel n :
  ∀ book drawn book' drawn',
    rounds tape fuel n book drawn = Done (book', drawn') →
    map_Forall (λ _ c, NoDup c.*1) book →
    map_Forall (λ _ c, NoDup c.*1) book'.
Proof.
  induction n as [|n IH]; intros book drawn book' drawn'.
  - simpl. by intros [= <- _].
  - rewrite rounds_S. intros H.
    apply bind_Done in H as ([[r b] d] & Hb & H).
    intros Hnd. eapply IH; [done|]. by eapply build_tree_NoDup.
Qed.

(** What [build_table] returns, in terms of the book its rounds filled. *)
Lemma build_table_Done fuel num_rounds (table : gmap Key Action) :
  build_table tape fuel num_rounds = Done table →
  ∃ book drawn,
    rounds tape fuel (Z.to_nat num_rounds) ∅ 0%nat = Done (book, drawn)
    ∧ table = omap max_by_get book
    ∧ map_Forall (λ _ c, c ≠ []) book
    ∧ map_Forall (λ _ c, NoDup c.*1) book.
Proof.
  unfold build_table. intros H.
  apply bind_Done in H as ([book drawn] & Hrounds & H).
  exists book, drawn. split; [done|].
  pose proof (rounds_book tape _ _ _ _ Hrounds) as (Hne & _).
  rewrite (collapse_Done _ Hne) in H. injection H as <-.
  split; [done|]. split; [done|].
  eapply rounds_NoDup; [done|]. apply map_Forall_empty.
Qed.

Lemma collapse_keys (book : gmap Key tally) k :
  map_Forall (λ _ c, c ≠ []) book →
  is_Some (omap max_by_get book !! k) ↔ is_Some (book !! k).
Proof.
  intros Hne. rewrite lookup_omap.
  destruct (book !! k) as [c|] eqn:Hc; simpl.
  - split; [eauto|]. intros _. apply max_by_get_is_Some. by eapply Hne.
  - split; intros [? ?]; done.
Qed.

End Recommendation.

(** X8: the table [build_table] returns has exactly the keys of the book
    its rounds filled, and the action under a key is one recorded under
    it whose tally is the largest: no action recorded under that key has a
    greater tally.  (An action never tried does not compete, even when
    every recorded tally is negative.) *)
Theorem build_table_recommends_largest_tally (G : Game) (tape : nat → nat)
    fuel num_rounds (table : gmap Key Action) :
  build_table tape fuel num_rounds = Done table →
  ∃ book drawn,
    rounds tape fuel (Z.to_nat num_rounds) ∅ 0%nat = Done (book, drawn)
    ∧ (∀ k, is_Some (table !! k) ↔ is_Some (book !! k))
    ∧ ∀ k a c,
        table !! k = Some a → book !! k = Some c →
        a ∈ c.*1
        ∧ ∀ a', a' ∈ c.*1 → book_get book k a' <= book_get book k a.
Proof.
  intros H.
  apply build_table_Done in H as (book & drawn & Hrounds & -> & Hne & Hnd).
  exists book, drawn. split; [done|]. split.
  - intros k. by apply collapse_keys.
  - intros k a c Hk Hc. rewrite lookup_omap, Hc in Hk. simpl in Hk.
    apply max_by_get_largest in Hk as (n & Hin & Hall).
    specialize (Hnd _ _ Hc). simpl in Hnd.
    split.
    + apply list_elem_of_fmap. by exists (a, n).
    + intros a' Ha'. apply list_elem_of_fmap in Ha' as ([a0 n'] & -> & Hin').
      unfold book_get. rewrite Hc. simpl.
      rewrite (tally_get_elem _ _ _ Hnd Hin), (tally_get_elem _ _ _ Hnd Hin').
      by eapply Hall.
Qed.

Lemma build_table_recommends_largest_tally_witness :
  ∃ book drawn,
    rounds (G := pile_game (Pile 3 0)) (λ n, n) 4 (Z.to_nat 3) ∅ 0%nat
    = Done (book, drawn)
    ∧ (∀ k,
         is_Some (({[ (3%nat, 0) := 1%nat; (2%nat, 1) := 2%nat ]}
                   : gmap (nat * Z) nat) !! k)
         ↔ is_Some (book !! k))
    ∧ ∀ k a c,
        ({[ (3%nat, 0) := 1%nat; (2%nat, 1) := 2%nat ]}
         : gmap (nat * Z) nat) !! k = Some a →
        book !! k = Some c →
        a ∈ c.*1
        ∧ ∀ a', a' ∈ c.*1 →
            book_get (G := pile_game (Pile 3 0)) book k a'
            <= book_get (G := pile_game (Pile 3 0)) book k a.
Proof.
  apply (build_table_recommends_largest_tally (pile_game (Pile 3 0))
           (λ n, n) 4%nat 3).
  vm_compute. reflexivity.
Defined.

(** ** More rounds *)

Section MoreRounds.
Context {G : Game}.
Variable tape : nat → nat.

(** The loop of [build_table] can be cut anywhere. *)
Lemma rounds_add fuel n m (book : gmap Key tally) drawn :
  rounds tape fuel (n + m) book drawn
  = '(book, drawn) ← rounds tape fuel n book drawn;
    rounds tape fuel m book drawn.
Proof.
  revert book drawn. induction n as [|n IH]; intros book drawn.
  - done.
  - change (S n + m)%nat with (S (n + m)). rewrite !rounds_S.
    destruct (build_tree tape fuel GameState book 2 drawn)
      as [[[r b] d]| |]; simpl; [apply IH|done..].
Qed.

Lemma rounds_keys_stay fuel n :
  ∀ (book : gmap Key tally) drawn book' drawn',
    rounds tape fuel n book drawn = Done (book', drawn') →
    ∀ k, is_Some (book !! k) → is_Some (book' !! k).
Proof.
  induction n as [|n IH]; intros book drawn book' drawn'.
  - simpl. by intros [= <- _].
  - rewrite rounds_S. intros H k Hk.
    apply bind_Done in H as ([[r b] d] & Hb & H).
    eapply IH; [done|].
    by apply (build_tree_book tape _ _ _ _ _ _ _ _ Hb).
Qed.

Section Draws.
Variable rank : State → nat.
Hypothesis Hrank : ranked G rank.

Lemma playout_draws fuel :
  ∀ (s t : State) drawn drawn',
    playout tape fuel s drawn = Done (t, drawn') →
    (drawn <= drawn' <= drawn + rank s)%nat.
Proof.
  induction fuel as [|fuel IH]; intros s t drawn drawn'; simpl; [done|].
  destruct (terminal_test s) eqn:Hs.
  - intros [= _ <-]. lia.
  - intros H. apply bind_Done in H as ([a d] & Hchoice & H).
    apply choice_Done in Hchoice as [Ha ->].
    apply IH in H. specialize (Hrank s a Hs Ha). lia.
Qed.

Lemma build_tree_draws fuel depth :
  ∀ (s : State) book drawn r book' drawn',
    build_tree tape fuel s book depth drawn = Done (r, book', drawn') →
    (drawn <= drawn' <= drawn + rank s)%nat.
Proof.
  assert (∀ (s : State) drawn r drawn',
            simulate tape fuel s drawn = Done (r, drawn') →
            (drawn <= drawn' <= drawn + rank s)%nat) as Hsim.
  { intros s drawn r drawn' H. unfold simulate in H.
    apply bind_Done in H as ([t d] & Ht & [= _ <-]).
    by eapply playout_draws. }
  induction depth as [|depth IH]; intros s book drawn r book' drawn' H.
  - simpl in H. apply bind_Done in H as ([r0 d0] & H & [= _ _ <-]).
    by eapply Hsim.
  - simpl in H. destruct (terminal_test s) eqn:Hs.
    { apply bind_Done in H as ([r0 d0] & H & [= _ _ <-]). by eapply Hsim. }
    apply bind_Done in H as ([a d1] & Hchoice & H).
    apply bind_Done in H as ([[reward book1] d2] & Hrec & [= _ _ <-]).
    apply choice_Done in Hchoice as [Ha ->].
    apply IH in Hrec. specialize (Hrank s a Hs Ha). lia.
Qed.

End Draws.
End MoreRounds.

(** X9: more rounds never lose an entry: on the same random draws, every
    key of the table built with [num_rounds] rounds is a key of the table
    built with any larger number of rounds. *)
Theorem build_table_keys_grow (G : Game) (tape : nat → nat) fuel
    num_rounds num_rounds' (table table' : gmap Key Action) :
  num_rounds <= num_rounds' →
  build_table tape fuel num_rounds = Done table →
  build_table tape fuel num_rounds' = Done table' →
  ∀ k, is_Some (table !! k) → is_Some (table' !! k).
Proof.
  intros Hle Ht Ht' k Hk.
  apply build_table_Done in Ht as (book & drawn & Hrounds & -> & Hne & _).
  apply build_table_Done in Ht'
    as (book' & drawn' & Hrounds' & -> & Hne' & _).
  apply collapse_keys; [done|]. apply collapse_keys in Hk; [|done].
  replace (Z.to_nat num_rounds')
    with (Z.to_nat num_rounds + (Z.to_nat num_rounds' - Z.to_nat num_rounds))%nat
    in Hrounds' by lia.
  rewrite rounds_add, Hrounds in Hrounds'. simpl in Hrounds'.
  by eapply rounds_keys_stay.
Qed.

Lemma build_table_keys_grow_witness :
  is_Some (({[ (3%nat, 0) := 1%nat; (2%nat, 1) := 1%nat;
               (1%nat, 1) := 1%nat ]} : gmap (nat * Z) nat)
           !! (2%nat, 1)).
Proof.
  apply (build_table_keys_grow (pile_game (Pile 3 0))
           (λ n, if (n <? 2)%nat then 0%nat else 1%nat) 4%nat 1 2
           {[ (3%nat, 0) := 1%nat; (2%nat, 1) := 1%nat ]}).
  - lia.
  - vm_compute. reflexivity.
  - vm_compute. reflexivity.
  - exists 1%nat. reflexivity.
Defined.

(** X10: on a finite game an episode calls [random.choice] at most as often
    as the rank of the initial position allows, one call per move played:
    [n] rounds make at most [n * rank(GameState())] draws. *)
Theorem rounds_draw_at_most (G : Game) (rank : State → nat)
    (tape : nat → nat) :
  ranked G rank →
  ∀ fuel n (book : gmap Key tally) drawn book' drawn',
    rounds tape fuel n book drawn = Done (book', drawn') →
    (drawn <= drawn' <= drawn + n * rank GameState)%nat.
Proof.
  intros Hrank fuel n. induction n as [|n IH]; intros book drawn book' drawn'.
  - simpl. intros [= _ <-]. lia.
  - rewrite rounds_S. intros H.
    apply bind_Done in H as ([[r b] d] & Hb & H).
    apply (build_tree_draws tape rank Hrank) in Hb. apply IH in H. lia.
Qed.

Lemma rounds_draw_at_most_witness :
  (0 <= 5 <= 0 + 2 * tokens (Pile 3 0))%nat.
Proof.
  apply (rounds_draw_at_most (pile_game (Pile 3 0)) tokens
           (λ n, if (n <? 2)%nat then 0%nat else 1%nat) (pile_ranked _)
           4%nat 2%nat ∅ 0%nat
           {[ (2%nat, 1) := [(1%nat, -1)];
              (3%nat, 0) := [(1%nat, 1); (2%nat, -1)];
              (1%nat, 1) := [(1%nat, 1)] ]} 5%nat).
  vm_compute. reflexivity.
Defined.

(* ===================================================================== *)
(** * Constraint satisfaction *)
(* ===================================================================== *)

Lemma satisfies_Forall (m : Z3.assignment) (solver : list Z3.constraint) :
  Z3.satisfies m solver = true ↔ Forall (λ c, c m = true) solver.
Proof.
  unfold Z3.satisfies. rewrite forallb_forall, Forall_forall.
  split; intros H c Hc; apply H; by apply list_elem_of_In.
Qed.

Lemma satisfies_add (m : Z3.assignment) (solver cs : list Z3.constraint) :
  Z3.satisfies m (Z3.Solver_add solver cs) = true
  ↔ Z3.satisfies m solver = true ∧ Z3.satisfies m cs = true.
Proof. rewrite !satisfies_Forall. apply Forall_app. Qed.

(** Takes a hypothesis [Z3.satisfies m solver = true] on a solver given
    constraint by constraint apart into facts about integers. *)
Ltac constraints_of H :=
  apply satisfies_Forall in H;
  repeat match type of H with
    | Forall _ (_ :: _) =>
        let H1 := fresh "Hc" in apply Forall_cons in H as [H1 H]
    end;
  clear H;
  cbv [Z3.leq Z3.less Z3.geq Z3.equ Z3.neq Z3.Distinct Z3.IntVal Z3.Int
       Z3.plus Z3.minus Z3.times Z3.opp fmap list_fmap] in *;
  repeat match goal with
    | H1 : bool_decide _ = true |- _ => apply bool_decide_eq_true in H1
    end;
  repeat match goal with
    | H1 : NoDup (_ :: _) |- _ =>
        let H2 := fresh "Hne" in apply NoDup_cons in H1 as [H2 H1]
    | H1 : NoDup [] |- _ => clear H1
    | H1 : _ ∉ _ :: _ |- _ =>
        let H2 := fresh "Hne" in apply not_elem_of_cons in H1 as [H2 H1]
    | H1 : _ ∉ [] |- _ => clear H1
    end.

(** ** Cryptarithmetic *)

Lemma ca_solver_spell (m : Z3.assignment) :
  Z3.satisfies m Cryptarithmetic.ca_solver
  = Z3.satisfies
      (Cryptarithmetic.spell (m "T") (m "W") (m "O") (m "F") (m "U") (m "R"))
      Cryptarithmetic.ca_solver.
Proof. reflexivity. Qed.

Lemma ca_solutions :
  Cryptarithmetic.solutions
  = [[7; 3; 4; 1; 6; 8]; [7; 6; 5; 1; 3; 0]; [8; 3; 6; 1; 7; 2];
     [8; 4; 6; 1; 9; 2]; [8; 6; 7; 1; 3; 4]; [9; 2; 8; 1; 5; 6];
     [9; 3; 8; 1; 7; 6]].
Proof. vm_compute. reflexivity. Qed.

(** What the bounds and the sum alone say about the digits. *)
Lemma ca_digits (t w o f u r : Z) :
  0 <= f → f <= 9 → 0 <= o → o <= 9 → 0 <= r → r <= 9 →
  0 <= t → t <= 9 → 0 <= u → u <= 9 → 0 <= w → w <= 9 →
  f ≠ 0 →
  (t + t) * 10 ^ 2 + (w + w) * 10 ^ 1 + (o + o) * 10 ^ 0
  = f * 10 ^ 3 + o * 10 ^ 2 + u * 10 ^ 1 + r * 10 ^ 0 →
  f = 1 ∧ (r = 2 * o ∨ r = 2 * o - 10)
  ∧ 5 <= t < 5 + 5 ∧ 0 <= w < 0 + 10 ∧ 0 <= o < 0 + 10 ∧ 0 <= u < 0 + 10.
Proof. lia. Qed.

(** X11: the constraints of the cryptarithmetic cells have exactly seven
    solutions in the letters T, W, O, F, U, R, among them 938 + 938 = 1876
    of the text and 846 + 846 = 1692 of the recorded run; in each of them
    F is 1. *)
Theorem ca_solver_models (m : Z3.assignment) :
  Z3.satisfies m Cryptarithmetic.ca_solver = true
  ↔ Cryptarithmetic.letters m
    ∈ [[7; 3; 4; 1; 6; 8]; [7; 6; 5; 1; 3; 0]; [8; 3; 6; 1; 7; 2];
       [8; 4; 6; 1; 9; 2]; [8; 6; 7; 1; 3; 4]; [9; 2; 8; 1; 5; 6];
       [9; 3; 8; 1; 7; 6]].
Proof.
  rewrite <- ca_solutions. split.
  - intros H. pose proof H as Hsat. rewrite ca_solver_spell in Hsat.
    cbv [Cryptarithmetic.ca_solver Z3.Solver_add Z3.Solver app] in H.
    constraints_of H.
    unfold Cryptarithmetic.letters, Cryptarithmetic.solutions.
    cbv [Cryptarithmetic.F Cryptarithmetic.O Cryptarithmetic.R
         Cryptarithmetic.T Cryptarithmetic.U Cryptarithmetic.W Z3.Int] in *.
    remember (m "T") as t eqn:Et in *. clear Et.
    remember (m "W") as w eqn:Ew in *. clear Ew.
    remember (m "O") as o eqn:Eo in *. clear Eo.
    remember (m "F") as f eqn:Ef in *. clear Ef.
    remember (m "U") as u eqn:Eu in *. clear Eu.
    remember (m "R") as r eqn:Er in *. clear Er.
    destruct (ca_digits t w o f u r) as (-> & Hr & Ht & Hw & Ho & Hu);
      [done..|].
    apply list_elem_of_bind. exists t. split; [|by apply elem_of_seqZ].
    apply list_elem_of_bind. exists w. split; [|by apply elem_of_seqZ].
    apply list_elem_of_bind. exists o. split; [|by apply elem_of_seqZ].
    apply list_elem_of_bind. exists u. split; [|by apply elem_of_seqZ].
    apply list_elem_of_bind. exists r. split.
    + rewrite Hsat. left.
    + destruct Hr as [-> | ->]; [left|right; left].
  - unfold Cryptarithmetic.solutions. intros H.
    apply list_elem_of_bind in H as (t & H & _).
    apply list_elem_of_bind in H as (w & H & _).
    apply list_elem_of_bind in H as (o & H & _).
    apply list_elem_of_bind in H as (u & H & _).
    apply list_elem_of_bind in H as (r & H & _).
    destruct (Z3.satisfies _ _) eqn:Hsat; [|by apply elem_of_nil in H].
    apply list_elem_of_singleton in H.
    unfold Cryptarithmetic.letters in H.
    cbv [Cryptarithmetic.F Cryptarithmetic.O Cryptarithmetic.R
         Cryptarithmetic.T Cryptarithmetic.U Cryptarithmetic.W Z3.Int] in H.
    injection H as Ht Hw Ho Hf Hu Hr.
    rewrite ca_solver_spell. by rewrite Ht, Hw, Ho, Hf, Hu, Hr.
Qed.

(** ** Map coloring *)

Lemma mc_solver_constraints :
  MapColoring.mc_solver
  = [Z3.leq (Z3.IntVal 0) MapColoring.WA; Z3.leq MapColoring.WA (Z3.IntVal 2);
     Z3.leq (Z3.IntVal 0) MapColoring.NT; Z3.leq MapColoring.NT (Z3.IntVal 2);
     Z3.leq (Z3.IntVal 0) MapColoring.SA; Z3.leq MapColoring.SA (Z3.IntVal 2);
     Z3.leq (Z3.IntVal 0) MapColoring.Q; Z3.leq MapColoring.Q (Z3.IntVal 2);
     Z3.leq (Z3.IntVal 0) MapColoring.NSW;
     Z3.leq MapColoring.NSW (Z3.IntVal 2);
     Z3.leq (Z3.IntVal 0) MapColoring.V; Z3.leq MapColoring.V (Z3.IntVal 2);
     Z3.leq (Z3.IntVal 0) MapColoring.T; Z3.leq MapColoring.T (Z3.IntVal 2);
     Z3.neq MapColoring.WA MapColoring.NT;
     Z3.neq MapColoring.WA MapColoring.SA;
     Z3.neq MapColoring.NT MapColoring.WA;
     Z3.neq MapColoring.NT MapColoring.SA;
     Z3.neq MapColoring.NT MapColoring.Q;
     Z3.neq MapColoring.SA MapColoring.WA;
     Z3.neq MapColoring.SA MapColoring.NT;
     Z3.neq MapColoring.SA MapColoring.Q;
     Z3.neq MapColoring.SA MapColoring.NSW;
     Z3.neq MapColoring.SA MapColoring.V;
     Z3.neq MapColoring.Q MapColoring.NT;
     Z3.neq MapColoring.Q MapColoring.SA;
     Z3.neq MapColoring.Q MapColoring.NSW;
     Z3.neq MapColoring.NSW MapColoring.SA;
     Z3.neq MapColoring.NSW MapColoring.Q;
     Z3.neq MapColoring.NSW MapColoring.V;
     Z3.neq MapColoring.V MapColoring.SA;
     Z3.neq MapColoring.V MapColoring.NSW].
Proof. reflexivity. Qed.

(** Three colours on the mainland: the path WA, NT, Q, NSW, V around SA
    alternates between the two colours SA leaves. *)
Lemma three_colours (wa nt sa q nsw v : Z) :
  0 <= wa <= 2 → 0 <= nt <= 2 → 0 <= sa <= 2 →
  0 <= q <= 2 → 0 <= nsw <= 2 → 0 <= v <= 2 →
  wa ≠ nt → wa ≠ sa → nt ≠ sa → nt ≠ q → sa ≠ q →
  sa ≠ nsw → sa ≠ v → q ≠ nsw → nsw ≠ v →
  q = wa ∧ nsw = nt ∧ v = wa.
Proof. lia. Qed.

(** X12: an assignment satisfies the map-coloring solver exactly when WA,
    NT and SA take three different colours among 0, 1, 2, Q and V take the
    colour of WA, NSW takes the colour of NT, and T (Tasmania, which has no
    neighbour) takes any of the three colours. *)
Theorem mc_solver_models (m : Z3.assignment) :
  Z3.satisfies m MapColoring.mc_solver = true
  ↔ (0 <= MapColoring.WA m <= 2 ∧ 0 <= MapColoring.NT m <= 2
     ∧ 0 <= MapColoring.SA m <= 2
     ∧ MapColoring.WA m ≠ MapColoring.NT m
     ∧ MapColoring.WA m ≠ MapColoring.SA m
     ∧ MapColoring.NT m ≠ MapColoring.SA m
     ∧ MapColoring.Q m = MapColoring.WA m
     ∧ MapColoring.NSW m = MapColoring.NT m
     ∧ MapColoring.V m = MapColoring.WA m
     ∧ 0 <= MapColoring.T m <= 2).
Proof.
  rewrite mc_solver_constraints. split.
  - intros H. constraints_of H.
    cbv [MapColoring.WA MapColoring.NT MapColoring.SA MapColoring.Q
         MapColoring.NSW MapColoring.V MapColoring.T Z3.Int] in *.
    destruct (three_colours (m "WA") (m "NT") (m "SA") (m "Q") (m "NSW")
                (m "V")) as (-> & -> & ->); done.
  - cbv [MapColoring.WA MapColoring.NT MapColoring.SA MapColoring.Q
         MapColoring.NSW MapColoring.V MapColoring.T Z3.Int].
    intros ([? ?] & [? ?] & [? ?] & ? & ? & ? & HQ & HNSW & HV & [? ?]).
    apply satisfies_Forall.
    cbv [Z3.leq Z3.neq Z3.IntVal Z3.Int MapColoring.WA MapColoring.NT
         MapColoring.SA MapColoring.Q MapColoring.NSW MapColoring.V
         MapColoring.T].
    repeat (apply Forall_cons; split;
            [cbv beta; rewrite ?HQ, ?HNSW, ?HV;
             by apply bool_decide_eq_true_2|]).
    apply Forall_nil_2.
Qed.

Lemma colors_lookup (x : Z) :
  0 <= x → x <= 2 →
  ∃ c, MapColoring.colors !! pretty x = Some c
       ∧ c ∈ ["Blue"; "Red"; "Green"].
Proof.
  intros H0 H2. assert (x = 0 ∨ x = 1 ∨ x = 2) as [->|[->| ->]] by lia.
  - exists "Blue". split; [by vm_compute|left].
  - exists "Red". split; [by vm_compute|right; left].
  - exists "Green". split; [by vm_compute|right; right; left].
Qed.

Lemma colors_differ (x y : Z) :
  0 <= x → x <= 2 → 0 <= y → y <= 2 → x ≠ y →
  MapColoring.colors !! pretty x ≠ MapColoring.colors !! pretty y.
Proof.
  intros ? ? ? ? Hne.
  assert (x = 0 ∨ x = 1 ∨ x = 2) as [->|[->| ->]] by lia;
    assert (y = 0 ∨ y = 1 ∨ y = 2) as [->|[->| ->]] by lia;
    try done; by vm_compute.
Qed.

(** X13: for every assignment that satisfies the map-coloring solver, each
    of the seven lookups [colors[...as_string()]] of the printing cell
    finds its key, and two regions that [adjacency] lists as neighbours are
    printed with different colour names. *)
Theorem mc_colors_printed (m : Z3.assignment) :
  Z3.satisfies m MapColoring.mc_solver = true →
  (∀ region,
     region ∈ [MapColoring.WA; MapColoring.NT; MapColoring.SA; MapColoring.Q;
               MapColoring.NSW; MapColoring.V; MapColoring.T] →
     ∃ c, MapColoring.color_of m region = Some c
          ∧ c ∈ ["Blue"; "Red"; "Green"])
  ∧ (∀ rA rBs rB,
       (rA, rBs) ∈ MapColoring.adjacency → rB ∈ rBs →
       MapColoring.color_of m rA ≠ MapColoring.color_of m rB).
Proof.
  rewrite mc_solver_constraints. intros H. constraints_of H.
  unfold MapColoring.color_of. split.
  - intros region Hin.
    repeat (apply elem_of_cons in Hin as [->|Hin];
            [by apply colors_lookup|]).
    by apply elem_of_nil in Hin.
  - intros rA rBs rB HA HB. unfold MapColoring.adjacency in HA.
    repeat (apply elem_of_cons in HA as [[= -> ->]|HA];
            [repeat (apply elem_of_cons in HB as [->|HB];
                     [by apply colors_differ|]);
             by apply elem_of_nil in HB|]).
    by apply elem_of_nil in HA.
Qed.

Lemma mc_colors_printed_witness :
  (∀ region,
     region ∈ [MapColoring.WA; MapColoring.NT; MapColoring.SA; MapColoring.Q;
               MapColoring.NSW; MapColoring.V; MapColoring.T] →
     ∃ c, MapColoring.color_of MapColoring.recorded region = Some c
          ∧ c ∈ ["Blue"; "Red"; "Green"])
  ∧ (∀ rA rBs rB,
       (rA, rBs) ∈ MapColoring.adjacency → rB ∈ rBs →
       MapColoring.color_of MapColoring.recorded rA
       ≠ MapColoring.color_of MapColoring.recorded rB).
Proof.
  apply (mc_colors_printed MapColoring.recorded).
  reflexivity.
Defined.

(** The colours of the recorded run. *)
Example mc_recorded_run :
  (λ region, MapColoring.color_of MapColoring.recorded region)
  <$> [MapColoring.WA; MapColoring.NT; MapColoring.SA; MapColoring.Q;
       MapColoring.NSW; MapColoring.V; MapColoring.T]
  = [Some "Red"; Some "Blue"; Some "Green"; Some "Red"; Some "Blue";
     Some "Red"; Some "Blue"].
Proof. by vm_compute. Qed.

(** ** N-queens *)

Lemma satisfies_foldl {B : Type} (m : Z3.assignment)
    (step : list Z3.constraint → B → list Z3.constraint) (Q : B → Prop) :
  (∀ s x, Z3.satisfies m (step s x) = true ↔ Z3.satisfies m s = true ∧ Q x) →
  ∀ l s,
    Z3.satisfies m (foldl step s l) = true
    ↔ Z3.satisfies m s = true ∧ Forall Q l.
Proof.
  intros Hstep l. induction l as [|x l IH]; intros s; simpl.
  - rewrite Forall_nil. tauto.
  - rewrite IH, Hstep, Forall_cons. tauto.
Qed.

Lemma enumerate_fmap_seq {A : Type} (f : nat → A) (N : nat) :
  enumerate (f <$> seq 0 N) = (λ i, (i, f i)) <$> seq 0 N.
Proof.
  unfold enumerate. apply list_eq. intros i.
  rewrite list_lookup_imap, !list_lookup_fmap.
  destruct (seq 0 N !! i) as [k|] eqn:Hk; [|done].
  apply lookup_seq in Hk as [-> _]. done.
Qed.

Lemma Forall_enumerate {A : Type} (P : nat * A → Prop) (f : nat → A) (N : nat) :
  Forall P (enumerate (f <$> seq 0 N)) ↔ ∀ i, (i < N)%nat → P (i, f i).
Proof.
  rewrite enumerate_fmap_seq, Forall_fmap, Forall_seq.
  split; intros H i Hi; apply H; lia.
Qed.

Lemma Abs_abs (x : Z3.term) (m : Z3.assignment) :
  NQueens.Abs x m = Z.abs (x m).
Proof.
  unfold NQueens.Abs, Z3.If, Z3.geq, Z3.opp, Z3.IntVal.
  case_bool_decide; lia.
Qed.

Lemma nqueens_range (m : Z3.assignment) (N : nat) :
  Z3.satisfies m
    (((λ i, Z3.Int (NQueens.queen_name i)) <$> seq 0 N) ≫= λ q,
       [Z3.leq (Z3.IntVal 0) q; Z3.less q (Z3.IntVal (Z.of_nat N))]) = true
  ↔ ∀ i, (i < N)%nat → 0 <= NQueens.row m i < Z.of_nat N.
Proof.
  rewrite satisfies_Forall, Forall_bind, Forall_fmap, Forall_seq.
  split.
  - intros H i Hi. specialize (H i ltac:(lia)). simpl in H.
    apply Forall_cons in H as [H1 H]. apply Forall_cons in H as [H2 _].
    apply bool_decide_eq_true in H1, H2.
    unfold Z3.IntVal, Z3.Int in H1, H2. unfold NQueens.row. lia.
  - intros H i Hi. specialize (H i ltac:(lia)). unfold NQueens.row in H.
    simpl. unfold Z3.leq, Z3.less, Z3.IntVal, Z3.Int.
    repeat (apply Forall_cons; split); [..|apply Forall_nil_2];
      apply bool_decide_eq_true_2; lia.
Qed.

Lemma nqueens_rows (m : Z3.assignment) (N : nat) :
  (λ x : Z3.term, x m) <$> ((λ i, Z3.Int (NQueens.queen_name i)) <$> seq 0 N)
  = NQueens.row m <$> seq 0 N.
Proof. by rewrite <- list_fmap_compose. Qed.

Lemma NoDup_fmap_seq {A : Type} (f : nat → A) (N : nat) :
  NoDup (f <$> seq 0 N)
  ↔ ∀ i j, (i < N)%nat → (j < N)%nat → i ≠ j → f i ≠ f j.
Proof.
  split.
  - intros H i j Hi Hj Hne Heq. apply Hne.
    apply (proj1 (NoDup_alt _) H i j (f i)).
    + by rewrite list_lookup_fmap, lookup_seq_lt.
    + by rewrite list_lookup_fmap, lookup_seq_lt, Heq.
  - intros H. apply NoDup_fmap_2_strong; [|apply NoDup_seq].
    intros i j Hi%elem_of_seq Hj%elem_of_seq Heq.
    destruct (decide (i = j)) as [|Hne]; [done|].
    destruct (H i j ltac:(lia) ltac:(lia) Hne Heq).
Qed.

Lemma nqueens_distinct (m : Z3.assignment) (N : nat) :
  Z3.satisfies m [Z3.Distinct ((λ i, Z3.Int (NQueens.queen_name i)) <$> seq 0 N)]
  = true
  ↔ ∀ i j, (i < N)%nat → (j < N)%nat → i ≠ j →
      NQueens.row m i ≠ NQueens.row m j.
Proof.
  rewrite satisfies_Forall, Forall_singleton. unfold Z3.Distinct.
  rewrite bool_decide_eq_true, nqueens_rows. apply NoDup_fmap_seq.
Qed.

Lemma nqueens_diagonals (m : Z3.assignment) (N : nat) (s : list Z3.constraint) :
  Z3.satisfies m
    (foldl
       (λ nq_solver '(i, q1),
          foldl
            (λ nq_solver '(j, q2),
               if decide (i = j) then nq_solver
               else
                 Z3.Solver_add nq_solver
                   [Z3.neq (NQueens.Abs (Z3.minus q1 q2))
                      (Z3.IntVal (Z.abs (Z.of_nat i - Z.of_nat j)))])
            nq_solver (enumerate ((λ i, Z3.Int (NQueens.queen_name i)) <$> seq 0 N)))
       s (enumerate ((λ i, Z3.Int (NQueens.queen_name i)) <$> seq 0 N))) = true
  ↔ Z3.satisfies m s = true
    ∧ ∀ i j, (i < N)%nat → (j < N)%nat → i ≠ j →
        Z.abs (NQueens.row m i - NQueens.row m j)
        ≠ Z.abs (Z.of_nat i - Z.of_nat j).
Proof.
  set (queens := (λ i, Z3.Int (NQueens.queen_name i)) <$> seq 0 N).
  rewrite (satisfies_foldl m _
    (λ '(i, q1),
       Forall (λ '(j, q2),
                 i ≠ j →
                 Z.abs (q1 m - q2 m) ≠ Z.abs (Z.of_nat i - Z.of_nat j))
              (enumerate queens))).
  - unfold queens. rewrite Forall_enumerate.
    split; intros [Hs H]; (split; [done|]).
    + intros i j Hi Hj. specialize (H i Hi). simpl in H.
      rewrite Forall_enumerate in H. apply (H j Hj).
    + intros i Hi. simpl. rewrite Forall_enumerate. intros j Hj. by apply H.
  - intros s' [i q1].
    apply (satisfies_foldl m _
      (λ '(j, q2),
         i ≠ j → Z.abs (q1 m - q2 m) ≠ Z.abs (Z.of_nat i - Z.of_nat j))).
    intros s'' [j q2]. case_decide as Hij.
    + tauto.
    + rewrite satisfies_add, (satisfies_Forall m [_]), Forall_singleton.
      unfold Z3.neq. rewrite bool_decide_eq_true, Abs_abs.
      unfold Z3.minus, Z3.IntVal. tauto.
Qed.

(** What the solver returned by [nqueens N] asks of an assignment: the
    queens are on the board, no two share a row and no two share a
    diagonal. *)
Lemma nqueens_satisfies (m : Z3.assignment) (N : nat) :
  Z3.satisfies m (NQueens.nqueens N) = true
  ↔ NQueens.non_attacking N (NQueens.row m).
Proof.
  unfold NQueens.nqueens, NQueens.non_attacking. cbv zeta.
  rewrite nqueens_diagonals, !satisfies_add, nqueens_range, nqueens_distinct.
  split.
  - intros [[[_ Hr] Hd] Hg]. split; [done|]. intros i j Hi Hj Hne.
    split; [by apply Hd|by apply Hg].
  - intros [Hr H].
    split; [split; [split; [done|done]|]|]; intros i j Hi Hj Hne;
      by destruct (H i j Hi Hj Hne).
Qed.

(** Queens that do not attack each other fill the rows. *)
Lemma nqueens_permutation (m : Z3.assignment) (N : nat) :
  NQueens.non_attacking N (NQueens.row m) →
  NQueens.row m <$> seq 0 N ≡ₚ seqZ 0 (Z.of_nat N).
Proof.
  intros [Hr H]. apply submseteq_length_Permutation.
  - apply NoDup_submseteq.
    + apply NoDup_fmap_seq. intros i j Hi Hj Hne. by destruct (H i j Hi Hj Hne).
    + intros r (i & -> & Hi%elem_of_seq)%list_elem_of_fmap.
      apply elem_of_seqZ. specialize (Hr i ltac:(lia)). lia.
  - rewrite length_fmap, length_seq, length_seqZ. lia.
Qed.

(** X14: an assignment satisfies the solver returned by [nqueens(N)]
    exactly when the rows it gives to [Q0], ..., [Q(N-1)] put [N] queens on
    the board with no two in one row and no two on one diagonal. *)
Theorem nqueens_models (N : nat) (m : Z3.assignment) :
  (0 < N)%nat →
  Z3.satisfies m (NQueens.nqueens N) = true
  ↔ NQueens.non_attacking N (NQueens.row m).
Proof. intros _. apply nqueens_satisfies. Qed.

Lemma nqueens_models_witness :
  (0 < 4)%nat
  ∧ (Z3.satisfies (NQueens.place [1; 3; 0; 2]) (NQueens.nqueens 4) = true
     ↔ NQueens.non_attacking 4 (NQueens.row (NQueens.place [1; 3; 0; 2]))).
Proof. split; [lia|apply (nqueens_models 4); lia]. Defined.

(** X15: in every model of the solver returned by [nqueens(N)] the rows of
    the [N] queens are the rows [0], ..., [N-1] in some order: every row of
    the board holds exactly one queen. *)
Theorem nqueens_one_queen_per_row (N : nat) (m : Z3.assignment) :
  (0 < N)%nat →
  Z3.satisfies m (NQueens.nqueens N) = true →
  NQueens.row m <$> seq 0 N ≡ₚ seqZ 0 (Z.of_nat N).
Proof.
  intros _ Hm. by apply nqueens_permutation, nqueens_satisfies.
Qed.

Lemma nqueens_one_queen_per_row_witness :
  NQueens.row (NQueens.place [1; 3; 0; 2]) <$> seq 0 4
  ≡ₚ seqZ 0 (Z.of_nat 4).
Proof.
  apply (nqueens_one_queen_per_row 4); [lia|]. vm_compute. reflexivity.
Defined.

Lemma length_foldl {A B : Type} (step : list A → B → list A) (w : B → nat) :
  (∀ s x, length (step s x) = (length s + w x)%nat) →
  ∀ l s, length (foldl step s l) = (length s + sum_list_with w l)%nat.
Proof.
  intros Hstep l. induction l as [|x l IH]; intros s; simpl.
  - lia.
  - rewrite IH, Hstep. lia.
Qed.

Lemma sum_list_with_fmap {A B : Type} (w : B → nat) (g : A → B) (l : list A) :
  sum_list_with w (g <$> l) = sum_list_with (w ∘ g) l.
Proof. induction l as [|x l IH]; [done|]. rewrite fmap_cons. simpl. by rewrite IH. Qed.

Lemma sum_list_with_seq (w : nat → nat) (c N : nat) :
  (∀ i, (i < N)%nat → w i = c) → sum_list_with w (seq 0 N) = (N * c)%nat.
Proof.
  induction N as [|N IH]; intros Hw; [done|].
  rewrite seq_S, sum_list_with_app, IH by (intros; apply Hw; lia).
  simpl. rewrite (Hw N) by lia. lia.
Qed.

Lemma sum_list_others (N i : nat) :
  sum_list_with (λ j, if decide (i = j) then 0 else 1)%nat (seq 0 N)
  = if decide (i < N)%nat then (N - 1)%nat else N.
Proof.
  induction N as [|N IH]; [done|].
  rewrite seq_S, sum_list_with_app, IH. simpl.
  repeat case_decide; lia.
Qed.

Lemma length_bind_pair {A B : Type} (f g : A → B) (l : list A) :
  length (l ≫= λ x, [f x; g x]) = (2 * length l)%nat.
Proof.
  induction l as [|x l IH]; [done|].
  rewrite bind_cons, length_app, IH. simpl. lia.
Qed.

(** X16: the solver returned by [nqueens(N)] holds [N * N + N + 1]
    constraints: two range constraints for each queen, one [Distinct], and
    one diagonal constraint for each ordered pair of different columns, so
    that every pair of queens is constrained twice. *)
Theorem nqueens_constraint_count (N : nat) :
  (0 < N)%nat → length (NQueens.nqueens N) = (N * N + N + 1)%nat.
Proof.
  intros _.
  unfold NQueens.nqueens. cbv zeta.
  set (queens := (λ i, Z3.Int (NQueens.queen_name i)) <$> seq 0 N).
  rewrite (length_foldl _
    (λ '(i, _),
       sum_list_with (λ j, if decide (i = j) then 0 else 1)%nat (seq 0 N))).
  - unfold Z3.Solver_add, Z3.Solver. rewrite !length_app. simpl.
    assert (length (queens ≫= λ q,
              [Z3.leq (Z3.IntVal 0) q; Z3.less q (Z3.IntVal (Z.of_nat N))])
            = (2 * N)%nat) as ->.
    { unfold queens. by rewrite length_bind_pair, length_fmap, length_seq. }
    unfold queens.
    rewrite enumerate_fmap_seq, sum_list_with_fmap.
    rewrite (sum_list_with_seq _ (N - 1)).
    + nia.
    + intros i Hi. simpl. rewrite sum_list_others. by rewrite decide_True.
  - intros s [i q1].
    rewrite (length_foldl _ (λ '(j, _), if decide (i = j) then 0 else 1)%nat).
    + unfold queens. by rewrite enumerate_fmap_seq, sum_list_with_fmap.
    + intros s' [j q2]. case_decide; [lia|].
      unfold Z3.Solver_add. rewrite length_app. simpl. lia.
Qed.

Lemma nqueens_constraint_count_witness :
  length (NQueens.nqueens 8) = (8 * 8 + 8 + 1)%nat.
Proof. apply (nqueens_constraint_count 8). lia. Defined.

(** X17: for each board size of the timing loop, 8, 16, 32 and 64, the
    solver returned by [nqueens(N)] has a model. *)
Theorem nqueens_sizes_satisfiable (N : nat) :
  N ∈ NQueens.sizes → ∃ m, Z3.satisfies m (NQueens.nqueens N) = true.
Proof.
  unfold NQueens.sizes. intros H.
  repeat (apply elem_of_cons in H as [-> | H]).
  - exists (NQueens.place (NQueens.odds_then_swapped_evens 8)).
    vm_compute. reflexivity.
  - exists (NQueens.place (NQueens.odds_then_evens 16)).
    vm_compute. reflexivity.
  - exists (NQueens.place (NQueens.odds_then_swapped_evens 32)).
    vm_compute. reflexivity.
  - exists (NQueens.place (NQueens.odds_then_evens 64)).
    vm_compute. reflexivity.
  - by apply elem_of_nil in H.
Qed.

Lemma nqueens_sizes_satisfiable_witness :
  ∃ m, Z3.satisfies m (NQueens.nqueens 8) = true.
Proof.
  apply (nqueens_sizes_satisfiable 8). unfold NQueens.sizes.
  apply list_elem_of_here.
Defined.
